(** * OnioNS-common: the Merkle tree container

    A shallow embedding of [src/containers/MerkleTree.cpp].  The tree is
    "built and referenced from the leaves to the root": nodes are shared
    objects linked by parent and child pointers, so the embedding keeps an
    explicit object store (a list indexed by address) and threads it through
    the constructor.  The query functions are [const] and only read it.
    Calls to the logger are left out: they do not touch the tree. *)

From Stdlib Require Import Strings.String Strings.Ascii Strings.Byte.
From Stdlib Require Import Arith ZArith Lia Zify ZifyNat Bool.
From stdpp Require Import base option list strings.

Local Open Scope string_scope.
Local Open Scope list_scope.
Local Open Scope nat_scope.

(** ** Digests and records *)

Module Const.
(** Modelled from the spec: [Constants.hpp] is not part of the sources
    at hand; the spec fixes the digest at 48 bytes (384 bits). *)
Definition SHA384_LEN : nat := 48.
End Const.

(** [SHA384_HASH] is [std::array<uint8_t, Const::SHA384_LEN>]: a byte
    sequence that always holds exactly [SHA384_LEN] bytes. *)
Record SHA384_HASH := mkHash {
  data : list byte;
  data_size : length data = Const.SHA384_LEN
}.

(** [RecordPtr]: the two accessors of [Record] the tree calls. *)
Record RecordPtr := mkRecord {
  Record_getName : string;
  Record_getHash : SHA384_HASH
}.

(** ** Undefined behaviour and results *)

Inductive Fault :=
| DanglingPointer      (* address that holds no object *)
| OutOfRange           (* vector index or iterator at or past the end *)
| BadCast              (* a LeafPtr that does not point to a Leaf *)
| JsonTypeMismatch     (* append on a non-array, operator[] on a non-object *)
| FuelExhausted.       (* a loop of the model ran out of fuel *)

Inductive Outcome (A : Type) :=
| Ok (a : A)
| Undefined (f : Fault).
Arguments Ok {A} a.
Arguments Undefined {A} f.

#[global] Instance Outcome_ret : MRet Outcome := fun A a => Ok a.
#[global] Instance Outcome_bind : MBind Outcome := fun A B k m =>
  match m with
  | Ok a => k a
  | Undefined f => Undefined f
  end.

(** ** Json::Value (the four kinds of value the tree produces) *)

#[warnings="-register-all"]
Inductive Json :=
| JNull
| JString (s : string)
| JArray (elems : list Json)
| JObject (members : list (string * Json)).

(** [Json::Value::append]: a null value turns into an array. *)
Definition Json_append (v x : Json) : Outcome Json :=
  match v with
  | JNull => Ok (JArray [x])
  | JArray l => Ok (JArray (l ++ [x]))
  | _ => Undefined JsonTypeMismatch
  end.

(** Members live in a [std::map] ordered by key. *)
Fixpoint members_insert (k : string) (x : Json) (m : list (string * Json))
  : list (string * Json) :=
  match m with
  | [] => [(k, x)]
  | (k', y) :: m' =>
      match String.compare k k' with
      | Lt => (k, x) :: m
      | Eq => (k, x) :: m'
      | Gt => (k', y) :: members_insert k x m'
      end
  end.

(** [value[key] = x]: a null value turns into an object. *)
Definition Json_set (v : Json) (k : string) (x : Json) : Outcome Json :=
  match v with
  | JNull => Ok (JObject [(k, x)])
  | JObject m => Ok (JObject (members_insert k x m))
  | _ => Undefined JsonTypeMismatch
  end.

Fixpoint members_find (k : string) (m : list (string * Json)) : option Json :=
  match m with
  | [] => None
  | (k', y) :: m' => if String.eqb k k' then Some y else members_find k m'
  end.

(** [Json::Value::isMember] *)
Definition Json_isMember (v : Json) (k : string) : bool :=
  match v with
  | JObject m => bool_decide (is_Some (members_find k m))
  | _ => false
  end.

(** ** The object store *)

(** [NodePtr] is [std::shared_ptr<Node>]; [None] is [nullptr]. *)
Definition NodePtr := option nat.

Record Node := mkNode {
  parent_ : NodePtr;
  leftChild_ : NodePtr;
  rightChild_ : NodePtr;
  hash_ : SHA384_HASH
}.

(** [Leaf] derives from [Node] and adds [name_]. *)
Inductive Object :=
| NodeObj (n : Node)
| LeafObj (n : Node) (name_ : string).

Abbreviation Heap := (list Object).

Definition node_of (o : Object) : Node :=
  match o with
  | NodeObj n => n
  | LeafObj n _ => n
  end.

Definition with_node (f : Node -> Node) (o : Object) : Object :=
  match o with
  | NodeObj n => NodeObj (f n)
  | LeafObj n s => LeafObj (f n) s
  end.

(** Reading through a pointer. *)
Definition deref (h : Heap) (p : nat) : Outcome Object :=
  match h !! p with
  | Some o => Ok o
  | None => Undefined DanglingPointer
  end.

(** [row[j]], [*it]: an index or iterator into a vector. *)
Definition at_ {A} (v : list A) (j : nat) : Outcome A :=
  match v !! j with
  | Some a => Ok a
  | None => Undefined OutOfRange
  end.

(** ** Stateful computations (the constructor) *)

Definition M (A : Type) : Type := Heap -> Outcome (A * Heap).

#[global] Instance M_ret : MRet M := fun A a h => Ok (a, h).
#[global] Instance M_bind : MBind M := fun A B k m h =>
  match m h with
  | Ok (a, h') => k a h'
  | Undefined f => Undefined f
  end.

(** A [const] read lifted into a stateful computation. *)
Definition get {A} (r : Heap -> Outcome A) : M A := fun h =>
  match r h with
  | Ok a => Ok (a, h)
  | Undefined f => Undefined f
  end.

Definition pure_ {A} (r : Outcome A) : M A := get (fun _ => r).

(** [std::make_shared]: the new object gets the next free address. *)
Definition make_shared (o : Object) : M nat := fun h =>
  Ok (length h, h ++ [o]).

(** A write through a pointer: the object at [p] is updated in place. *)
Definition modify (p : nat) (f : Node -> Node) : M unit := fun h =>
  match h !! p with
  | Some _ => Ok (tt, alter (with_node f) p h)
  | None => Undefined DanglingPointer
  end.

(** ** Node and Leaf methods *)

Definition Node_ctor (parent : NodePtr) (hash : SHA384_HASH) : Node :=
  mkNode parent None None hash.

Definition Leaf_ctor (record : RecordPtr) (parent : NodePtr) : Object :=
  LeafObj (Node_ctor parent (Record_getHash record)) (Record_getName record).

Definition setParent (p : nat) (parent : NodePtr) : M unit :=
  modify p (fun n => mkNode parent (leftChild_ n) (rightChild_ n) (hash_ n)).

Definition setChildren (p : nat) (left right : NodePtr) : M unit :=
  modify p (fun n => mkNode (parent_ n) left right (hash_ n)).

Definition getParent (h : Heap) (p : nat) : Outcome NodePtr :=
  o ← deref h p; mret (parent_ (node_of o)).

Definition getHash (h : Heap) (p : nat) : Outcome SHA384_HASH :=
  o ← deref h p; mret (hash_ (node_of o)).

Definition getName (h : Heap) (p : nat) : Outcome string :=
  o ← deref h p;
  match o with
  | LeafObj _ s => mret s
  | NodeObj _ => Undefined BadCast
  end.

Section MerkleTree.

(** The two Botan routines the tree calls: [SHA_384::process], whose
    48-byte output is copied into a [SHA384_HASH], and [base64_encode]. *)
Variable sha384 : list byte -> SHA384_HASH.
Variable base64_encode : list byte -> string.

Definition getBase64Hash (h : Heap) (p : nat) : Outcome string :=
  d ← getHash h p; mret (base64_encode (firstn Const.SHA384_LEN (data d))).

Definition asValue (h : Heap) (p : nat) : Outcome Json :=
  o ← deref h p;
  let value := JNull in
  value ← match leftChild_ (node_of o) with
          | Some l => s ← getBase64Hash h l; Json_set value "left" (JString s)
          | None => mret value
          end;
  value ← match rightChild_ (node_of o) with
          | Some r => s ← getBase64Hash h r; Json_set value "right" (JString s)
          | None => mret value
          end;
  mret value.

(** [concatenateHashes]: both digests are copied into a 96-byte buffer,
    which is hashed. *)
Definition concatenateHashes (h : Heap) (a b : nat) : Outcome SHA384_HASH :=
  ha ← getHash h a;
  hb ← getHash h b;
  let concat := firstn Const.SHA384_LEN (data ha)
                ++ firstn Const.SHA384_LEN (data hb) in
  mret (sha384 concat).

(** ** buildTree *)

(** The body of the [for] loop at index [j]: the pair [row[j]],
    [row[j + 1]] (or [row[j]] twice at the end of an odd row) gets a new
    parent node. *)
Definition pairUp (row : list nat) (j : nat) : M nat :=
  left ← pure_ (at_ row (j + 0));
  right ← (if j + 1 <? length row then pure_ (at_ row (j + 1))
           else mret left);
  hash ← get (fun h => concatenateHashes h left right);
  node ← make_shared (NodeObj (Node_ctor None hash));
  _ ← setChildren node (Some left)
        (if j + 1 <? length row then Some right else None);
  _ ← setParent left (Some node);
  _ ← setParent right (Some node);
  mret node.

(** The [for] loop over [j]; each iteration consumes two slots of [row],
    so [fuel] iterations cover [2 * fuel] slots. *)
Fixpoint buildRow (fuel j : nat) (row nextRow : list nat) : M (list nat) :=
  if j <? length row then
    match fuel with
    | 0 => fun _ => Undefined FuelExhausted
    | S fuel' =>
        node ← pairUp row j;
        buildRow fuel' (j + 2) row (nextRow ++ [node])
    end
  else mret nextRow.

(** The [while (row.size() > 1)] loop. *)
Fixpoint buildLevels (fuel : nat) (row : list nat) : M (list nat) :=
  if 1 <? length row then
    match fuel with
    | 0 => fun _ => Undefined FuelExhausted
    | S fuel' =>
        nextRow ← buildRow (length row) 0 row [];
        buildLevels fuel' nextRow
    end
  else mret row.

Definition buildTree (row : list nat) : M SHA384_HASH :=
  row ← buildLevels (length row) row;
  root ← pure_ (at_ row 0);
  get (fun h => getHash h root).

(** ** The tree object and its constructor *)

Record MerkleTree := mkTree {
  leaves_ : list nat;
  rootHash_ : SHA384_HASH
}.

Fixpoint makeLeaves (records : list RecordPtr) (leaves row : list nat)
  : M (list nat * list nat) :=
  match records with
  | [] => mret (leaves, row)
  | r :: records' =>
      leaf ← make_shared (Leaf_ctor r None);
      makeLeaves records' (leaves ++ [leaf]) (row ++ [leaf])
  end.

Definition MerkleTree_ctor (records : list RecordPtr) : M MerkleTree :=
  '(leaves, row) ← makeLeaves records [] [];
  rootHash ← buildTree row;
  mret (mkTree leaves rootHash).

(** A tree of its own: the constructor run on an empty store. *)
Definition build (records : list RecordPtr) : Outcome (MerkleTree * Heap) :=
  MerkleTree_ctor records [].

Definition getRootHash (t : MerkleTree) : SHA384_HASH := rootHash_ t.

(** ** Queries *)

(** [isLessThan] compares the names of two leaves.  The needle of a query
    is a leaf that carries a name only; it is represented by that name. *)
Definition isLessThan (a b : string) : bool := String.ltb a b.

(** The [while (node)] loop of [generatePath]. *)
Fixpoint walkUp (fuel : nat) (h : Heap) (node : NodePtr) (result : Json)
  : Outcome Json :=
  match node with
  | None => Ok result
  | Some p =>
      match fuel with
      | 0 => Undefined FuelExhausted
      | S fuel' =>
          v ← asValue h p;
          result ← Json_append result v;
          parent ← getParent h p;
          walkUp fuel' h parent result
      end
  end.

Definition generatePath (h : Heap) (leaf : nat) : Outcome Json :=
  let result := JNull in
  let leafVal := JNull in
  name ← getName h leaf;
  leafVal ← Json_set leafVal "name" (JString name);
  hash ← getBase64Hash h leaf;
  leafVal ← Json_set leafVal "hash" (JString hash);
  result ← Json_append result leafVal;
  walkUp (length h) h (Some leaf) result.

(** [std::lower_bound] over [leaves_] with [isLessThan]: the binary
    search of the standard library on the range [first, first + len). *)
Fixpoint lower_bound (fuel : nat) (h : Heap) (leaves : list nat)
    (needle : string) (first len : nat) : Outcome nat :=
  if len =? 0 then Ok first
  else
    match fuel with
    | 0 => Undefined FuelExhausted
    | S fuel' =>
        let half := len / 2 in
        let middle := first + half in
        p ← at_ leaves middle;
        name ← getName h p;
        if isLessThan name needle
        then lower_bound fuel' h leaves needle (middle + 1) (len - half - 1)
        else lower_bound fuel' h leaves needle first half
    end.

(** [std::upper_bound], likewise. *)
Fixpoint upper_bound (fuel : nat) (h : Heap) (leaves : list nat)
    (needle : string) (first len : nat) : Outcome nat :=
  if len =? 0 then Ok first
  else
    match fuel with
    | 0 => Undefined FuelExhausted
    | S fuel' =>
        let half := len / 2 in
        let middle := first + half in
        p ← at_ leaves middle;
        name ← getName h p;
        if isLessThan needle name
        then upper_bound fuel' h leaves needle first half
        else upper_bound fuel' h leaves needle (middle + 1) (len - half - 1)
    end.

Definition generateSpan (h : Heap) (t : MerkleTree) (needle : string)
    (lowerBound : nat) : Outcome Json :=
  upperBound ← upper_bound (length (leaves_ t)) h (leaves_ t) needle
                 0 (length (leaves_ t));
  lb ← at_ (leaves_ t) lowerBound;
  lowerPath ← generatePath h lb;
  ub ← at_ (leaves_ t) upperBound;
  upperPath ← generatePath h ub;
  let result := JNull in
  result ← Json_set result "left" lowerPath;
  result ← Json_set result "right" upperPath;
  mret result.

Definition generateSubtree (h : Heap) (t : MerkleTree) (domain : string)
  : Outcome Json :=
  if bool_decide (leaves_ t = []) then
    let empty := JNull in
    Ok empty
  else
    let needle := domain in
    lowerBound ← lower_bound (length (leaves_ t)) h (leaves_ t) needle
                   0 (length (leaves_ t));
    if negb (lowerBound =? length (leaves_ t)) then
      lb ← at_ (leaves_ t) lowerBound;
      name ← getName h lb;
      if negb (isLessThan needle name)
      then generatePath h lb
      else generateSpan h t needle lowerBound
    else generateSpan h t needle lowerBound.

(** ** Verification *)

Definition verifySubtree (proof : Json) (record : RecordPtr) : bool :=
  (* todo: check *)
  true.

Definition verifyRoot (proof : Json) (root : string) : bool :=
  (* todo: check if base of subtree equals the string *)
  true.

End MerkleTree.

(** * Utils

    The helpers of [src/Utils.cpp] that work on numbers, bytes and strings.
    Command-line parsing and the key-loading routines depend on popt and
    Botan throughout and are not part of the model. *)

Module Utils.

(** ** Results *)

Inductive Failure :=
| SignedOverflow       (* an [int] expression leaves the range of [int] *)
| BadArrayNewLength    (* [new char[n]] with a negative [n] *)
| OutOfBounds          (* access outside an array *)
| OutOfFuel.           (* a loop of the model ran out of fuel *)

Inductive Result (A : Type) :=
| Returns (a : A)
| Fails (f : Failure).
Arguments Returns {A} a.
Arguments Fails {A} f.

#[global] Instance Result_ret : MRet Result := fun A a => Returns a.
#[global] Instance Result_bind : MBind Result := fun A B k m =>
  match m with
  | Returns a => k a
  | Fails f => Fails f
  end.

(** ** Machine integers: [int] has 32 bits, [size_t] and
    [unsigned long] have 64. *)

Definition INT_MAX : Z := 2 ^ 31 - 1.
Definition INT_MIN : Z := - 2 ^ 31.
Definition ULONG_MOD : Z := 2 ^ 64.

(** The result of an [int] operation. *)
Definition int_ (z : Z) : Result Z :=
  if ((INT_MIN <=? z) && (z <=? INT_MAX))%Z then Returns z
  else Fails SignedOverflow.

(** The result of an [unsigned long] or [size_t] operation. *)
Definition ulong (z : Z) : Z := (z mod ULONG_MOD)%Z.

(** A value stored into a [uint8_t]. *)
Definition u8 (n : nat) : byte := default x00 (Byte.of_nat (n mod 256)).

(** ** isPowerOfTwo *)

Definition isPowerOfTwo (x : Z) : bool :=
  negb (x =? 0)%Z && (Z.land x (ulong (x - 1)) =? 0)%Z.

(** ** decode64Estimation *)

Definition decode64Estimation (inSize : Z) : Z :=
  ulong (ulong (ulong (ulong (inSize * 4) / 3) + inSize / 96) + 6).

(** ** std::string

    A [std::string] is its sequence of characters. *)

(** [s.compare(pos, len, t)]: the characters of [s] from [pos], at most
    [len] of them, against [t]; [None] is [std::out_of_range], thrown when
    [pos] is beyond the end. *)
Definition string_compare (s : list ascii) (pos len : nat) (t : list ascii)
  : option comparison :=
  if length s <? pos then None
  else Some (String.compare (string_of_list_ascii (take len (drop pos s)))
                            (string_of_list_ascii t)).

Definition is_zero (c : comparison) : bool :=
  match c with Eq => true | _ => false end.

Definition strEndsWith (str ending : list ascii) : option bool :=
  if length ending <=? length str then
    c ← string_compare str (length str - length ending) (length ending) ending;
    Some (is_zero c)
  else Some false.

Definition strBeginsWith (str begin : list ascii) : option bool :=
  c ← string_compare str 0 (length begin) begin;
  Some (is_zero c).

(** [std::find_if]: the position of the first element that satisfies [p],
    the end position when there is none. *)
Fixpoint find_if {A} (p : A -> bool) (l : list A) : nat :=
  match l with
  | [] => 0
  | x :: l' => if p x then 0 else S (find_if p l')
  end.

(** [s.erase(first, last)] on iterator positions. *)
Definition erase {A} (s : list A) (first last : nat) : list A :=
  take first s ++ drop last s.

(** [s.find(t, pos)]: the first position at or after [pos] where [t]
    occurs in [s]; [None] is [npos]. *)
Fixpoint is_prefix (t s : list ascii) : bool :=
  match t, s with
  | [], _ => true
  | a :: t', b :: s' => Ascii.eqb a b && is_prefix t' s'
  | _ :: _, [] => false
  end.

Fixpoint search (t s : list ascii) : option nat :=
  if is_prefix t s then Some 0
  else match s with
       | [] => None
       | _ :: s' => S <$> search t s'
       end.

Definition string_find (s t : list ascii) (pos : nat) : option nat :=
  if length s <? pos then None
  else (fun i => pos + i) <$> search t (drop pos s).

(** [s.replace(pos, len, t)] *)
Definition string_replace (s : list ascii) (pos len : nat) (t : list ascii)
  : list ascii :=
  take pos s ++ t ++ drop (pos + len) s.

Section Trim.

(** [std::isspace], which depends on the locale. *)
Variable isspace : ascii -> bool.

Definition trimString (str : list ascii) : list ascii :=
  let s := str in
  let s := erase s 0 (find_if (fun c => negb (isspace c)) s) in
  let s := erase s
             (length s - find_if (fun c => negb (isspace c)) (rev s))
             (length s) in
  s.

End Trim.

(** ** stringReplace *)

Fixpoint stringReplace_loop (fuel : nat) (str find replace : list ascii)
    (pos : nat) : Result (list ascii) :=
  match string_find str find pos with
  | None => Returns str
  | Some pos =>
      match fuel with
      | 0 => Fails OutOfFuel
      | S fuel' =>
          let str := string_replace str pos (length find) replace in
          let pos := pos + length replace in
          stringReplace_loop fuel' str find replace pos
      end
  end.

(** The string left in [str] when the call returns.  With a non-empty
    [find] every round consumes at least one character of [str], so
    [length str] rounds are enough. *)
Definition stringReplace (str find replace : list ascii)
  : Result (list ascii) :=
  stringReplace_loop (length str) str find replace 0.

(** ** Hexadecimal *)

(** A [char] buffer from [new char[n]]: [None] is a byte that was never
    written. *)
Definition store (buf : list (option byte)) (i : Z) (c : byte)
  : Result (list (option byte)) :=
  if ((0 <=? i) && (i <? Z.of_nat (length buf)))%Z
  then Returns (<[Z.to_nat i := Some c]> buf)
  else Fails OutOfBounds.

Definition hex_digit (d : nat) : byte :=
  u8 (if d <? 10 then 48 + d else 87 + d).

(** [sprintf(p, "%02x", b)]: two digits and the terminating zero. *)
Definition sprintf_02x (buf : list (option byte)) (at_ : Z) (b : byte)
  : Result (list (option byte)) :=
  buf ← store buf at_ (hex_digit (Byte.to_nat b / 16));
  buf ← store buf (at_ + 1) (hex_digit (Byte.to_nat b mod 16));
  store buf (at_ + 2) x00.

(** The [for] loop of [getAsHex], from [i] on. *)
Fixpoint getAsHex_loop (fuel : nat) (data : list byte) (len i : Z)
    (hexStr : list (option byte)) : Result (list (option byte)) :=
  if (i <? len)%Z then
    match fuel with
    | 0 => Fails OutOfFuel
    | S fuel' =>
        match data !! Z.to_nat i with
        | None => Fails OutOfBounds
        | Some b =>
            at_ ← int_ (i * 2);
            at_ ← int_ (at_ + 2);
            hexStr ← sprintf_02x hexStr at_ b;
            i ← int_ (i + 1);
            getAsHex_loop fuel' data len i hexStr
        end
    end
  else Returns hexStr.

Definition getAsHex (data : list byte) (len : Z)
  : Result (list (option byte)) :=
  n ← int_ (len * 2);
  n ← int_ (n + 3);
  if (n <? 0)%Z then Fails BadArrayNewLength
  else
    let hexStr := replicate (Z.to_nat n) None in
    hexStr ← store hexStr 0 "0"%byte;
    hexStr ← store hexStr 1 "x"%byte;
    getAsHex_loop (Z.to_nat len) data len 0 hexStr.

Definition char2int (c : byte) : nat :=
  let c := Byte.to_nat c in
  if (48 <=? c) && (c <=? 57) then c - 48
  else if (65 <=? c) && (c <=? 70) then c - 65 + 10
  else if (97 <=? c) && (c <=? 102) then c - 97 + 10
  else 0.

(** [hex2bin]: [src] holds the bytes up to the terminating zero; the
    result is what has been written to [target]. *)
Fixpoint hex2bin (src : list byte) : list byte :=
  match src with
  | a :: b :: src' =>
      if negb (Byte.eqb a x00) && negb (Byte.eqb b x00)
      then u8 (char2int a * 16 + char2int b) :: hex2bin src'
      else []
  | _ => []
  end.

(** The zero-terminated string that starts at [from] in a buffer, if the
    buffer holds one. *)
Fixpoint c_string (buf : list (option byte)) : option (list byte) :=
  match buf with
  | [] => None
  | None :: _ => None
  | Some c :: buf' =>
      if Byte.eqb c x00 then Some []
      else s ← c_string buf'; Some (c :: s)
  end.

End Utils.

(** ** A concrete instance for examples

    Stand-ins for the two Botan routines, and a few records, so that the
    model can be run.  Nothing below depends on how they are chosen. *)

Module Sample.

Definition checksum (m : list byte) : nat :=
  fold_left (fun a b => (a * 31 + Byte.to_nat b) mod 256) m 7.

Definition digest_bytes (m : list byte) : list byte :=
  map (fun k => default x00 (Byte.of_nat ((checksum m + k) mod 256)))
      (seq 0 Const.SHA384_LEN).

Lemma digest_bytes_size (m : list byte) :
  length (digest_bytes m) = Const.SHA384_LEN.
Proof. unfold digest_bytes. by rewrite length_map, length_seq. Qed.

Definition sha384 (m : list byte) : SHA384_HASH :=
  mkHash (digest_bytes m) (digest_bytes_size m).

Definition hex_digit (n : nat) : ascii :=
  ascii_of_nat (if n <? 10 then 48 + n else 87 + n).

Definition base64_encode (m : list byte) : string :=
  string_of_list_ascii
    (flat_map (fun b => [hex_digit (Byte.to_nat b / 16);
                         hex_digit (Byte.to_nat b mod 16)]) m).

Definition digest (b : byte) : SHA384_HASH :=
  mkHash (repeat b Const.SHA384_LEN) eq_refl.

Definition records : list RecordPtr :=
  [mkRecord "a" (digest x01); mkRecord "b" (digest x02);
   mkRecord "c" (digest x03); mkRecord "d" (digest x04)].

(** The tree over [records] and its store. *)
Definition heap : Heap :=
  match build sha384 records with
  | Ok (_, h) => h
  | Undefined _ => []
  end.


(** The path of leaf "c". *)
Definition path_c : Json :=
  match generatePath base64_encode heap 2 with
  | Ok v => v
  | Undefined _ => JNull
  end.

End Sample.

(** * Vocabulary of the properties *)

(** [setParent] as a function on nodes. *)
Definition relink (q : NodePtr) (n : Node) : Node :=
  mkNode q (leftChild_ n) (rightChild_ n) (hash_ n).

(** An object with its parent link blanked: what the constructor never
    changes once the object exists. *)
Definition unlinked (o : Object) : Object := with_node (relink None) o.

(** [h'] holds every object of [h], changed at most in its parent link. *)
Definition extends (h h' : Heap) : Prop :=
  forall p o, h !! p = Some o ->
    exists o', h' !! p = Some o' /\ unlinked o' = unlinked o.

(** Parent links point forwards and child links backwards, within the
    store: no link dangles and no chain of parents can cycle. *)
Definition links_ok (bound p : nat) (n : Node) : Prop :=
  (forall q, parent_ n = Some q -> p < q < bound) /\
  (forall c, leftChild_ n = Some c -> c < p) /\
  (forall c, rightChild_ n = Some c -> c < p).

Definition wf_heap (h : Heap) : Prop :=
  forall p o, h !! p = Some o -> links_ok (length h) p (node_of o).

(** The leaves the constructor allocates, as objects. *)
Definition leaf_objects (records : list RecordPtr) : Heap :=
  map (fun r => Leaf_ctor r None) records.

(** The constructor's precondition, "records must be sorted by name":
    each name is strictly below the next. *)
Fixpoint sorted_names (names : list string) : bool :=
  match names with
  | a :: (b :: _) as rest => String.ltb a b && sorted_names rest
  | _ => true
  end.

Definition sorted_records (records : list RecordPtr) : bool :=
  sorted_names (map Record_getName records).

(** The first element of a path: the leaf's name and encoded digest. *)
Definition leaf_entry (name hash : string) : Json :=
  JObject [("hash", JString hash); ("name", JString name)].

(** What [asValue] returns, by the encoded digests of the children that
    are there. *)
Definition sibling_entry (left right : option string) : Json :=
  match left, right with
  | None, None => JNull
  | Some a, None => JObject [("left", JString a)]
  | None, Some b => JObject [("right", JString b)]
  | Some a, Some b => JObject [("left", JString a); ("right", JString b)]
  end.

(** The objects the [while (node)] loop visits from [p] upwards. *)
Fixpoint ancestors (fuel : nat) (h : Heap) (p : nat) : list nat :=
  match fuel with
  | 0 => []
  | S fuel' =>
      p :: match h !! p with
           | Some o =>
               match parent_ (node_of o) with
               | Some q => ancestors fuel' h q
               | None => []
               end
           | None => []
           end
  end.

(** ** The entries of a proof *)

(** The entries of a path that carry a sibling digest. *)
Definition sibling_steps (proof : Json) : list Json :=
  match proof with
  | JArray (_ :: entries) =>
      filter (fun e => Json_isMember e "left" || Json_isMember e "right")
             entries
  | _ => []
  end.

Definition is_path (v : Json) : bool :=
  match v with JArray _ => true | _ => false end.

Definition is_span (v : Json) : bool :=
  match v with JObject _ => true | _ => false end.


Section Vocabulary.

Variable sha384 : list byte -> SHA384_HASH.
Variable base64_encode : list byte -> string.

(** The digest [concatenateHashes] gives two digests. *)
Definition Hash (a b : SHA384_HASH) : SHA384_HASH :=
  sha384 (data a ++ data b).

(** What the new store holds for the [i]-th node made from [row],
    starting at slot [j]: children and digest come from the pair
    [row[j + 2i]], [row[j + 2i + 1]]; the second is absent exactly when
    the first is the last slot of the row. *)
Definition paired (h : Heap) (row : list nat) (k : nat) (o : Object)
  : Prop :=
  exists l dl dr,
    row !! k = Some l /\
    getHash h l = Ok dl /\
    getHash h (default l (row !! (k + 1))) = Ok dr /\
    o = NodeObj (mkNode None (Some l) (row !! (k + 1)) (Hash dl dr)).

(** Every node with a left child carries the digest of its two children,
    the left one taken twice when there is no right one. *)
Definition hash_ok (h : Heap) : Prop :=
  forall p o l, h !! p = Some o -> leftChild_ (node_of o) = Some l ->
    exists dl dr,
      getHash h l = Ok dl /\
      getHash h (default l (rightChild_ (node_of o))) = Ok dr /\
      hash_ (node_of o) = Hash dl dr.

(** A parent link leads to a node that has the object as a child. *)
Definition parent_ok (h : Heap) : Prop :=
  forall p o q, h !! p = Some o -> parent_ (node_of o) = Some q ->
    exists oq l, h !! q = Some oq /\
      leftChild_ (node_of oq) = Some l /\
      (l = p \/ rightChild_ (node_of oq) = Some p).

(** The loop invariant of [buildTree]: [row] holds exactly the objects
    that have no parent yet. *)
Record tree_inv (h : Heap) (row : list nat) : Prop := {
  inv_wf : wf_heap h;
  inv_row : Forall (fun p => p < length h) row;
  inv_nodup : NoDup row;
  inv_hash : hash_ok h;
  inv_parent : parent_ok h;
  inv_roots : forall p o, h !! p = Some o ->
                parent_ (node_of o) = None -> p ∈ row
}.

Definition encoded (h : Heap) (c : NodePtr) : option string :=
  match c with
  | Some p =>
      match h !! p with
      | Some o => Some (base64_encode (data (hash_ (node_of o))))
      | None => None
      end
  | None => None
  end.

Definition node_entry (h : Heap) (p : nat) : Json :=
  match h !! p with
  | Some o =>
      sibling_entry (encoded h (leftChild_ (node_of o)))
                    (encoded h (rightChild_ (node_of o)))
  | None => JNull
  end.

(** [b] is the parent of [a], has [a] as a child, and carries the digest
    of its children. *)
Definition parent_step (h : Heap) (a b : nat) : Prop :=
  exists oa ob l dl dr,
    h !! a = Some oa /\ parent_ (node_of oa) = Some b /\
    h !! b = Some ob /\
    leftChild_ (node_of ob) = Some l /\
    (l = a \/ rightChild_ (node_of ob) = Some a) /\
    getHash h l = Ok dl /\
    getHash h (default l (rightChild_ (node_of ob))) = Ok dr /\
    hash_ (node_of ob) = Hash dl dr.

(** The entry of [node] is [e] in every later state of the store: in what
    [asValue] returns, and in every path that passes through [node]. *)
Definition entry_everywhere (h' : Heap) (node : nat) (e : Json) : Prop :=
  forall h'', extends h' h'' -> wf_heap h'' ->
    asValue base64_encode h'' node = Ok e /\
    forall leaf n s m,
      h'' !! leaf = Some (LeafObj n s) ->
      ancestors (length h'') h'' leaf !! m = Some node ->
      exists path,
        generatePath base64_encode h'' leaf = Ok (JArray path) /\
        path !! (S m) = Some e.

End Vocabulary.

(** ** The tree as a function of its leaf digests *)

Section DigestRows.

Variable sha384 : list byte -> SHA384_HASH.

(** One row of digests reduced to the next: neighbours are hashed
    together, a last one without neighbour with itself. *)
Fixpoint pair_digests (ds : list SHA384_HASH) : list SHA384_HASH :=
  match ds with
  | a :: b :: rest => Hash sha384 a b :: pair_digests rest
  | [a] => [Hash sha384 a a]
  | [] => []
  end.

Fixpoint reduce_digests (fuel : nat) (ds : list SHA384_HASH)
  : list SHA384_HASH :=
  if 1 <? length ds then
    match fuel with
    | 0 => ds
    | S fuel' => reduce_digests fuel' (pair_digests ds)
    end
  else ds.

(** The digest at the top of the reduction, if there is any digest. *)
Definition merkle_root (ds : list SHA384_HASH) : option SHA384_HASH :=
  head (reduce_digests (length ds) ds).

End DigestRows.

(** The number of rows above a row of [n] elements: how often [n] is
    halved, rounding up, until one element is left. *)
Fixpoint levels (fuel n : nat) : nat :=
  if 1 <? n then
    match fuel with
    | 0 => 0
    | S fuel' => S (levels fuel' ((n + 1) / 2))
    end
  else 0.

(** The objects from [p] up to the one without a parent, as a relation. *)
Inductive climbs (h : Heap) : nat -> list nat -> Prop :=
| climbs_top (p : nat) (o : Object) :
    h !! p = Some o -> parent_ (node_of o) = None -> climbs h p [p]
| climbs_step (p q : nat) (o : Object) (c : list nat) :
    h !! p = Some o -> parent_ (node_of o) = Some q ->
    climbs h q c -> climbs h p (p :: c).

(** The digests of a row of objects. *)
Definition row_digests (h : Heap) (row : list nat) (ds : list SHA384_HASH)
  : Prop :=
  Forall2 (fun p d => getHash h p = Ok d) row ds.

(** Each of the first [n] addresses climbs through [k] parents to an
    element of [row]. *)
Definition leaves_at_depth (h : Heap) (n k : nat) (row : list nat) : Prop :=
  forall i, i < n ->
    exists c top,
      climbs h i c /\ length c = S k /\ last c = Some top /\ top ∈ row.

Definition parentless (h : Heap) (row : list nat) : Prop :=
  forall p, p ∈ row ->
    exists o, h !! p = Some o /\ parent_ (node_of o) = None.

(** [value[key]] on an object, when the member is there. *)
Definition member (v : Json) (k : string) : option Json :=
  match v with
  | JObject m => members_find k m
  | _ => None
  end.

(** ** Hexadecimal text *)

(** The two lower-case hexadecimal digits of every byte, in order. *)
Definition hex_chars (data : list byte) : list byte :=
  flat_map (fun b => [Utils.hex_digit (Byte.to_nat b / 16);
                      Utils.hex_digit (Byte.to_nat b mod 16)]) data.

(** * Properties *)

(** Let [lia] see through division by two. *)
Ltac Zify.zify_post_hook ::= Z.to_euclidean_division_equations.

(** ** The order on names *)

Lemma ascii_compare_refl (a : ascii) : Ascii.compare a a = Eq.
Proof. unfold Ascii.compare. apply N.compare_refl. Qed.

Lemma string_compare_refl (s : string) : String.compare s s = Eq.
Proof.
  induction s as [|a s IH]; simpl; [reflexivity|].
  by rewrite ascii_compare_refl.
Qed.

Lemma ascii_compare_trans (a b c : ascii) :
  Ascii.compare a b = Lt -> Ascii.compare b c = Lt -> Ascii.compare a c = Lt.
Proof.
  unfold Ascii.compare. rewrite !N.compare_lt_iff. apply N.lt_trans.
Qed.

Lemma string_compare_trans (s1 s2 s3 : string) :
  String.compare s1 s2 = Lt -> String.compare s2 s3 = Lt ->
  String.compare s1 s3 = Lt.
Proof.
  revert s2 s3.
  induction s1 as [|a s1 IH]; intros [|b s2] [|c s3]; simpl; try done.
  destruct (Ascii.compare a b) eqn:Hab; try done;
    destruct (Ascii.compare b c) eqn:Hbc; try done.
  - apply Ascii.compare_eq_iff in Hab, Hbc. subst.
    rewrite ascii_compare_refl. apply IH.
  - apply Ascii.compare_eq_iff in Hab. subst. by rewrite Hbc.
  - apply Ascii.compare_eq_iff in Hbc. subst. by rewrite Hab.
  - by rewrite (ascii_compare_trans _ _ _ Hab Hbc).
Qed.

Lemma ltb_irrefl (s : string) : String.ltb s s = false.
Proof. unfold String.ltb. by rewrite string_compare_refl. Qed.

Lemma ltb_trans (a b c : string) :
  String.ltb a b = true -> String.ltb b c = true -> String.ltb a c = true.
Proof.
  unfold String.ltb. intros Hab Hbc.
  destruct (String.compare a b) eqn:E1; try done.
  destruct (String.compare b c) eqn:E2; try done.
  by rewrite (string_compare_trans _ _ _ E1 E2).
Qed.

Lemma ltb_asym (a b : string) :
  String.ltb a b = true -> String.ltb b a = false.
Proof.
  unfold String.ltb. rewrite (String.compare_antisym a b).
  by destruct (String.compare b a).
Qed.

Lemma ltb_total (a b : string) :
  String.ltb a b = false -> String.ltb b a = false -> a = b.
Proof.
  unfold String.ltb. rewrite (String.compare_antisym a b).
  destruct (String.compare b a) eqn:E; simpl; try done.
  intros _ _. symmetry. by apply String.compare_eq_iff.
Qed.

(** ** The object store under the constructor's writes *)

Lemma firstn_data (d : SHA384_HASH) :
  firstn Const.SHA384_LEN (data d) = data d.
Proof. apply firstn_all2. by rewrite data_size. Qed.


Lemma extends_refl (h : Heap) : extends h h.
Proof. intros p o Hp. eauto. Qed.

Lemma extends_trans (h1 h2 h3 : Heap) :
  extends h1 h2 -> extends h2 h3 -> extends h1 h3.
Proof.
  intros H12 H23 p o Hp.
  destruct (H12 p o Hp) as (o2 & Hp2 & E2).
  destruct (H23 p o2 Hp2) as (o3 & Hp3 & E3).
  exists o3. split; [done | congruence].
Qed.

Lemma extends_length (h h' : Heap) : extends h h' -> length h <= length h'.
Proof.
  intros E. destruct (decide (length h = 0)) as [|Hn]; [lia|].
  destruct (lookup_lt_is_Some_2 h (length h - 1)) as [o Ho]; [lia|].
  destruct (E _ _ Ho) as (o' & Ho' & _).
  apply lookup_lt_Some in Ho'. lia.
Qed.

Lemma unlinked_hash (o o' : Object) :
  unlinked o' = unlinked o -> hash_ (node_of o') = hash_ (node_of o).
Proof. destruct o, o'; simpl; intros [=]; congruence. Qed.

Lemma unlinked_children (o o' : Object) :
  unlinked o' = unlinked o ->
  leftChild_ (node_of o') = leftChild_ (node_of o) /\
  rightChild_ (node_of o') = rightChild_ (node_of o).
Proof. destruct o, o'; simpl; intros [=]; split; congruence. Qed.

Lemma unlinked_relink (q : NodePtr) (o : Object) :
  unlinked (with_node (relink q) o) = unlinked o.
Proof. by destruct o. Qed.

Lemma deref_Some (h : Heap) (p : nat) (o : Object) :
  h !! p = Some o -> deref h p = Ok o.
Proof. unfold deref. by intros ->. Qed.

Lemma getHash_Some (h : Heap) (p : nat) (o : Object) :
  h !! p = Some o -> getHash h p = Ok (hash_ (node_of o)).
Proof. unfold getHash. intros Hp. by rewrite (deref_Some _ _ _ Hp). Qed.

Lemma getParent_Some (h : Heap) (p : nat) (o : Object) :
  h !! p = Some o -> getParent h p = Ok (parent_ (node_of o)).
Proof. unfold getParent. intros Hp. by rewrite (deref_Some _ _ _ Hp). Qed.

Lemma getName_Some (h : Heap) (p : nat) (n : Node) (s : string) :
  h !! p = Some (LeafObj n s) -> getName h p = Ok s.
Proof. unfold getName. intros Hp. by rewrite (deref_Some _ _ _ Hp). Qed.

Lemma getHash_extends (h h' : Heap) (p : nat) (d : SHA384_HASH) :
  extends h h' -> getHash h p = Ok d -> getHash h' p = Ok d.
Proof.
  intros E. unfold getHash, deref.
  destruct (h !! p) as [o|] eqn:Hp; [|done].
  destruct (E _ _ Hp) as (o' & -> & Eo). simpl. intros [= <-].
  by rewrite (unlinked_hash _ _ Eo).
Qed.

Lemma getName_extends (h h' : Heap) (p : nat) (s : string) :
  extends h h' -> getName h p = Ok s -> getName h' p = Ok s.
Proof.
  intros E. unfold getName, deref.
  destruct (h !! p) as [o|] eqn:Hp; [|done].
  destruct (E _ _ Hp) as (o' & -> & Eo). simpl.
  destruct o, o'; simpl in *; try done. congruence.
Qed.

(** A write of a parent link, as a function on stores. *)
Lemma setParent_run (h : Heap) (p : nat) (q : NodePtr) :
  is_Some (h !! p) ->
  setParent p q h = Ok (tt, alter (with_node (relink q)) p h).
Proof. intros [o Ho]. unfold setParent, modify. by rewrite Ho. Qed.

Lemma setChildren_run (h : Heap) (p : nat) (l r : NodePtr) :
  is_Some (h !! p) ->
  setChildren p l r h
  = Ok (tt, alter (with_node (fun n => mkNode (parent_ n) l r (hash_ n))) p h).
Proof. intros [o Ho]. unfold setChildren, modify. by rewrite Ho. Qed.

Section Construction.

Variable sha384 : list byte -> SHA384_HASH.


Lemma concatenateHashes_Some (h : Heap) (a b : nat) (oa ob : Object) :
  h !! a = Some oa -> h !! b = Some ob ->
  concatenateHashes sha384 h a b
  = Ok (Hash sha384 (hash_ (node_of oa)) (hash_ (node_of ob))).
Proof.
  intros Ha Hb. unfold concatenateHashes.
  rewrite (getHash_Some _ _ _ Ha), (getHash_Some _ _ _ Hb). simpl.
  by rewrite !firstn_data.
Qed.

(** One iteration of the [for] loop: a node is allocated at the next free
    address, its children are the pair, and both get it as their parent. *)
Lemma pairUp_spec (h : Heap) (row : list nat) (j l : nat) (ol : Object) :
  row !! j = Some l -> h !! l = Some ol ->
  (forall r, row !! (j + 1) = Some r -> is_Some (h !! r)) ->
  exists (or : Object) (h' : Heap),
    h !! default l (row !! (j + 1)) = Some or /\
    pairUp sha384 row j h = Ok (length h, h') /\
    length h' = S (length h) /\
    h' !! length h
    = Some (NodeObj (mkNode None (Some l) (row !! (j + 1))
                       (Hash sha384 (hash_ (node_of ol)) (hash_ (node_of or))))) /\
    forall p o, h !! p = Some o ->
      h' !! p
      = Some (if bool_decide (p = l \/ p = default l (row !! (j + 1)))
              then with_node (relink (Some (length h))) o else o).
Proof.
  intros Hj Hl Hr.
  set (r := default l (row !! (j + 1))).
  assert (exists or, h !! r = Some or) as [or Hor].
  { unfold r. destruct (row !! (j + 1)) as [r'|] eqn:E; simpl; [|by eauto].
    destruct (Hr r' eq_refl) as [x Hx]. eauto. }
  pose proof (lookup_lt_Some _ _ _ Hl) as Hll.
  pose proof (lookup_lt_Some _ _ _ Hor) as Hrl.
  set (hash := Hash sha384 (hash_ (node_of ol)) (hash_ (node_of or))).
  set (node := NodeObj (mkNode None (Some l) (row !! (j + 1)) hash)).
  exists or,
    (alter (with_node (relink (Some (length h)))) r
       (alter (with_node (relink (Some (length h)))) l (h ++ [node]))).
  split; [done|]. split.
  - assert (pairUp sha384 row j h
            = (_ ← setChildren (length h) (Some l) (row !! (j + 1));
               _ ← setParent l (Some (length h));
               _ ← setParent r (Some (length h));
               mret (length h))
                (h ++ [NodeObj (Node_ctor None hash)])) as ->.
    { unfold pairUp, mbind, M_bind, pure_, get, at_, make_shared.
      rewrite Nat.add_0_r, Hj. subst r.
      destruct (Nat.ltb_spec (j + 1) (length row)) as [Hlt|Hge].
      - destruct (lookup_lt_is_Some_2 row (j + 1) Hlt) as [r' Hr'].
        rewrite Hr' in *. simpl in *.
        by rewrite (concatenateHashes_Some _ _ _ _ _ Hl Hor).
      - rewrite (lookup_ge_None_2 row (j + 1)) in * by done. simpl in *.
        by rewrite (concatenateHashes_Some _ _ _ _ _ Hl Hor). }
    unfold mbind, M_bind.
    rewrite setChildren_run.
    2:{ rewrite lookup_app_r, Nat.sub_diag; [by eexists | lia]. }
    assert (alter
              (with_node (fun n => mkNode (parent_ n) (Some l)
                                     (row !! (j + 1)) (hash_ n)))
              (length h) (h ++ [NodeObj (Node_ctor None hash)])
            = h ++ [node]) as ->.
    { rewrite alter_app_r_alt, Nat.sub_diag by lia. done. }
    rewrite setParent_run.
    2:{ rewrite lookup_app_l by done. by eexists. }
    rewrite setParent_run.
    2:{ apply lookup_lt_is_Some. rewrite length_alter, length_app. lia. }
    done.
  - split; [rewrite !length_alter, length_app; simpl; lia|]. split.
    + rewrite !list_lookup_alter_ne by lia.
      rewrite lookup_app_r, Nat.sub_diag by lia. done.
    + intros p o Hp.
      pose proof (lookup_lt_Some _ _ _ Hp) as Hpl.
      destruct (decide (p = r)) as [->|Hpr].
      * rewrite list_lookup_alter_eq. rewrite bool_decide_eq_true_2 by auto.
        destruct (decide (r = l)) as [->|Hne].
        -- rewrite list_lookup_alter_eq, lookup_app_l, Hp by done. simpl.
           by destruct o.
        -- by rewrite list_lookup_alter_ne, lookup_app_l, Hp by done.
      * rewrite list_lookup_alter_ne by done.
        destruct (decide (p = l)) as [->|Hpl'].
        -- rewrite list_lookup_alter_eq, lookup_app_l, Hp by done.
           by rewrite bool_decide_eq_true_2 by auto.
        -- rewrite list_lookup_alter_ne, lookup_app_l, Hp by done.
           rewrite bool_decide_eq_false_2; [done|]. intros [?|?]; done.
Qed.

End Construction.

(** ** One row of the construction *)

Section RowConstruction.

Variable sha384 : list byte -> SHA384_HASH.

Lemma half_step (n j : nat) :
  j < n -> (n - j + 1) / 2 = S ((n - (j + 2) + 1) / 2).
Proof.
  intros Hj. destruct (decide (n = j + 1)) as [->|Hne].
  - by replace (j + 1 - j + 1) with 2 by lia;
      replace (j + 1 - (j + 2) + 1) with 1 by lia.
  - replace (n - j + 1) with (n - (j + 2) + 1 + 1 * 2) by lia.
    rewrite Nat.div_add by lia. lia.
Qed.

Lemma half_done (n j : nat) : n <= j -> (n - j + 1) / 2 = 0.
Proof. intros Hj. replace (n - j + 1) with 1 by lia. done. Qed.


Lemma buildRow_spec (fuel : nat) :
  forall (j : nat) (row acc : list nat) (h : Heap),
    wf_heap h ->
    Forall (fun p => p < length h) row ->
    NoDup row ->
    length row <= j + 2 * fuel ->
    exists h',
      buildRow sha384 fuel j row acc h
      = Ok (acc ++ seq (length h) ((length row - j + 1) / 2), h') /\
      length h' = length h + (length row - j + 1) / 2 /\
      wf_heap h' /\
      extends h h' /\
      (forall i, i < (length row - j + 1) / 2 ->
         exists o, h' !! (length h + i) = Some o /\
                   paired sha384 h row (j + 2 * i) o) /\
      (forall k p, row !! k = Some p -> j <= k ->
         exists o, h' !! p = Some o /\
           parent_ (node_of o) = Some (length h + (k - j) / 2)) /\
      (forall k p, row !! k = Some p -> k < j -> h' !! p = h !! p) /\
      (forall p, p < length h -> p ∉ row -> h' !! p = h !! p).
Proof.
  induction fuel as [|fuel IH]; intros j row acc h Hwf Hrow Hnd Hfuel.
  - exists h. cbn [buildRow].
    destruct (Nat.ltb_spec j (length row)) as [Hlt|Hge]; [lia|].
    rewrite half_done by done. cbn [seq]. rewrite app_nil_r, Nat.add_0_r.
    split; [done|]. split; [done|]. split; [done|].
    split; [apply extends_refl|]. split; [intros i Hi; lia|].
    split; [|done].
    intros k p Hk Hjk. apply lookup_lt_Some in Hk. lia.
  - cbn [buildRow]. destruct (Nat.ltb_spec j (length row)) as [Hlt|Hge].
    2:{ exists h. rewrite half_done by done. cbn [seq].
        rewrite app_nil_r, Nat.add_0_r.
        split; [done|]. split; [done|]. split; [done|].
        split; [apply extends_refl|]. split; [intros i Hi; lia|].
        split; [|done].
        intros k p Hk Hjk. apply lookup_lt_Some in Hk. lia. }
    destruct (lookup_lt_is_Some_2 row j Hlt) as [l Hl].
    assert (forall k p, row !! k = Some p -> is_Some (h !! p)) as Hvalid.
    { intros k p Hk. apply lookup_lt_is_Some.
      rewrite Forall_lookup in Hrow. eauto. }
    destruct (Hvalid _ _ Hl) as [ol Hol].
    destruct (pairUp_spec sha384 h row j l ol Hl Hol)
      as (or & h1 & Hor & Hrun & Hlen1 & Hnew & Hold); [by eauto|].
    set (r := default l (row !! (j + 1))) in *.
    assert (wf_heap h1) as Hwf1.
    { intros p o Hp. rewrite Hlen1.
      destruct (decide (p = length h)) as [->|Hne].
      - rewrite Hnew in Hp. injection Hp as <-. simpl.
        pose proof (lookup_lt_Some _ _ _ Hol).
        split; [done|]. split; [by intros c [= <-]|].
        intros c Hc. rewrite Forall_lookup in Hrow. eauto.
      - assert (p < length h) as Hpl.
        { apply lookup_lt_Some in Hp. lia. }
        destruct (lookup_lt_is_Some_2 h p Hpl) as [o0 Ho0].
        rewrite (Hold _ _ Ho0) in Hp. injection Hp as <-.
        destruct (Hwf _ _ Ho0) as (Hp1 & Hp2 & Hp3).
        case_bool_decide.
        + destruct o0; simpl in *; (split; [intros q [= <-]; lia|done]).
        + split; [|done]. intros q Hq. specialize (Hp1 q Hq). lia. }
    assert (extends h h1) as Hext1.
    { intros p o Hp. rewrite (Hold _ _ Hp). eexists. split; [done|].
      case_bool_decide; [apply unlinked_relink|done]. }
    destruct (IH (j + 2) row (acc ++ [length h]) h1 Hwf1)
      as (h' & Hrun' & Hlen' & Hwf' & Hext' & Hnodes & Hpar & Hbefore
          & Hother); [| done | lia |].
    { eapply Forall_impl; [exact Hrow|]. simpl. intros. lia. }
    exists h'.
    rewrite (half_step _ _ Hlt).
    split.
    { unfold mbind, M_bind. rewrite Hrun, Hrun', Hlen1.
      by rewrite <- app_assoc. }
    split; [lia|]. split; [done|].
    split; [by eapply extends_trans|].
    assert (forall k p, row !! k = Some p -> k < j -> p <> l /\ p <> r)
      as Hfresh.
    { intros k p Hk Hkj. split; intros ->.
      - pose proof (NoDup_lookup _ _ _ _ Hnd Hk Hl). lia.
      - unfold r in Hk. destruct (row !! (j + 1)) as [r'|] eqn:Hr'; simpl in *.
        + pose proof (NoDup_lookup _ _ _ _ Hnd Hk Hr'). lia.
        + pose proof (NoDup_lookup _ _ _ _ Hnd Hk Hl). lia. }
    split; [|split; [|split]].
    + intros [|i] Hi.
      * exists (NodeObj (mkNode None (Some l) (row !! (j + 1))
                  (Hash sha384 (hash_ (node_of ol)) (hash_ (node_of or))))).
        split.
        -- rewrite Nat.add_0_r, Hother; [done | lia |].
           intros Hin. apply list_elem_of_lookup in Hin as [k Hk].
           rewrite Forall_lookup in Hrow. specialize (Hrow _ _ Hk). lia.
        -- exists l, (hash_ (node_of ol)), (hash_ (node_of or)).
           rewrite Nat.mul_0_r, Nat.add_0_r. fold r.
           by rewrite (getHash_Some _ _ _ Hol), (getHash_Some _ _ _ Hor).
      * destruct (Hnodes i) as (o & Ho & l' & dl & dr & Hl' & Hdl & Hdr & ->);
          [lia|].
        eexists. split.
        { replace (length h + S i) with (length h1 + i) by lia. exact Ho. }
        exists l', dl, dr.
        replace (j + 2 * S i) with (j + 2 + 2 * i) by lia.
        split; [done|].
        destruct (Hvalid _ _ Hl') as [ol' Hol'].
        destruct (Hext1 _ _ Hol') as (ol1 & Hol1 & Eol).
        rewrite (getHash_Some _ _ _ Hol1) in Hdl.
        rewrite (getHash_Some _ _ _ Hol').
        rewrite <- (unlinked_hash _ _ Eol). split; [done|].
        set (r' := default l' (row !! (j + 2 + 2 * i + 1))) in *.
        assert (is_Some (h !! r')) as [or' Hor'].
        { unfold r'. destruct (row !! (j + 2 + 2 * i + 1)) eqn:E; eauto. }
        destruct (Hext1 _ _ Hor') as (or1 & Hor1 & Eor).
        rewrite (getHash_Some _ _ _ Hor1) in Hdr.
        rewrite (getHash_Some _ _ _ Hor').
        rewrite <- (unlinked_hash _ _ Eor). done.
    + intros k p Hk Hjk.
      destruct (decide (k < j + 2)) as [Hk2|Hk2].
      * destruct (Hvalid _ _ Hk) as [o Ho].
        rewrite (Hbefore _ _ Hk Hk2), (Hold _ _ Ho).
        eexists. split; [done|].
        assert (p = l \/ p = r) as Hp.
        { destruct (decide (k = j)) as [->|Hne]; [left; congruence|].
          right. assert (k = j + 1) as -> by lia. unfold r. by rewrite Hk. }
        rewrite bool_decide_eq_true_2 by done.
        replace ((k - j) / 2) with 0.
        2:{ symmetry. apply Nat.div_small. lia. }
        rewrite Nat.add_0_r. by destruct o.
      * destruct (Hpar k p Hk) as (o & Ho & Hpo); [lia|].
        exists o. split; [done|]. rewrite Hpo, Hlen1. f_equal.
        replace (k - j) with (k - (j + 2) + 1 * 2) by lia.
        rewrite Nat.div_add by lia. lia.
    + intros k p Hk Hkj.
      rewrite (Hbefore _ _ Hk) by lia.
      destruct (Hvalid _ _ Hk) as [o Ho].
      rewrite (Hold _ _ Ho), Ho.
      destruct (Hfresh _ _ Hk Hkj).
      rewrite bool_decide_eq_false_2; [done|]. intros [?|?]; done.
    + intros p Hp Hnin.
      rewrite Hother; [| lia | done].
      destruct (lookup_lt_is_Some_2 h p Hp) as [o Ho].
      rewrite (Hold _ _ Ho), Ho.
      rewrite bool_decide_eq_false_2; [done|]. intros [->| ->].
      * apply Hnin. apply list_elem_of_lookup. eauto.
      * apply Hnin. unfold r.
        destruct (row !! (j + 1)) as [r'|] eqn:Hr'; simpl;
          apply list_elem_of_lookup; eauto.
Qed.

End RowConstruction.

(** ** The whole construction *)

Section TreeConstruction.

Variable sha384 : list byte -> SHA384_HASH.


Lemma extends_inv (h h' : Heap) (p : nat) (o' : Object) :
  extends h h' -> p < length h -> h' !! p = Some o' ->
  exists o, h !! p = Some o /\ unlinked o' = unlinked o.
Proof.
  intros E Hp Ho'. destruct (lookup_lt_is_Some_2 h p Hp) as [o Ho].
  destruct (E _ _ Ho) as (o'' & Ho'' & Eo). exists o. split; [done|].
  congruence.
Qed.

Lemma buildRow_inv (h : Heap) (row : list nat) :
  tree_inv sha384 h row ->
  exists h',
    buildRow sha384 (length row) 0 row [] h
    = Ok (seq (length h) ((length row + 1) / 2), h') /\
    length h' = length h + (length row + 1) / 2 /\
    extends h h' /\
    tree_inv sha384 h' (seq (length h) ((length row + 1) / 2)) /\
    (forall i, i < (length row + 1) / 2 ->
       exists o, h' !! (length h + i) = Some o /\
                 paired sha384 h row (2 * i) o).
Proof.
  intros [Hwf Hrow Hnd Hhash Hparent Hroots].
  destruct (buildRow_spec sha384 (length row) 0 row [] h Hwf Hrow Hnd)
    as (h' & Hrun & Hlen & Hwf' & Hext & Hnodes & Hpar & _ & Hother); [lia|].
  rewrite Nat.sub_0_r in *. simpl in Hrun.
  exists h'. split; [done|]. split; [done|]. split; [done|].
  split; [|done].
  split.
  - done.
  - apply Forall_forall. intros p Hp. apply elem_of_seq in Hp. lia.
  - apply NoDup_seq.
  - intros p o l Hp Hl.
    destruct (decide (p < length h)) as [Hlt|Hge].
    + destruct (extends_inv _ _ _ _ Hext Hlt Hp) as (o0 & Ho0 & Eo).
      destruct (unlinked_children _ _ Eo) as [El Er].
      rewrite El in Hl. destruct (Hhash _ _ _ Ho0 Hl) as (dl & dr & H1 & H2 & H3).
      exists dl, dr. rewrite Er, (unlinked_hash _ _ Eo).
      eauto using getHash_extends.
    + pose proof (lookup_lt_Some _ _ _ Hp) as Hpl.
      destruct (Hnodes (p - length h))
        as (o1 & Ho1 & l1 & dl & dr & Hl1 & Hdl & Hdr & ->); [lia|].
      replace (length h + (p - length h)) with p in Ho1 by lia.
      rewrite Hp in Ho1. injection Ho1 as ->. simpl in *.
      injection Hl as <-. exists dl, dr.
      eauto using getHash_extends.
  - intros p o q Hp Hq.
    destruct (decide (p < length h)) as [Hlt|Hge].
    2:{ pose proof (lookup_lt_Some _ _ _ Hp) as Hpl.
        destruct (Hnodes (p - length h))
          as (o1 & Ho1 & l1 & dl & dr & _ & _ & _ & ->); [lia|].
        replace (length h + (p - length h)) with p in Ho1 by lia.
        rewrite Hp in Ho1. by injection Ho1 as ->. }
    destruct (decide (p ∈ row)) as [Hin|Hnin].
    + apply list_elem_of_lookup in Hin as [k Hk].
      pose proof (lookup_lt_Some _ _ _ Hk) as Hkl.
      destruct (Hpar k p Hk) as (o1 & Ho1 & Hpo1); [lia|].
      rewrite Hp in Ho1. injection Ho1 as <-.
      rewrite Hq in Hpo1. injection Hpo1 as ->.
      rewrite Nat.sub_0_r.
      destruct (Hnodes (k / 2))
        as (oq & Hoq & l1 & dl & dr & Hl1 & _ & _ & ->); [lia|].
      eexists _, l1. split; [exact Hoq|].
      cbn [node_of leftChild_ rightChild_]. split; [done|].
      destruct (decide (k = 2 * (k / 2))) as [Ek|Ek].
      * left. replace (0 + 2 * (k / 2)) with k in Hl1 by lia. congruence.
      * right. replace (0 + 2 * (k / 2) + 1) with k by lia. done.
    + rewrite (Hother p Hlt Hnin) in Hp.
      destruct (Hparent _ _ _ Hp Hq) as (oq & l & Hoq & Hl & Hc).
      destruct (Hext _ _ Hoq) as (oq' & Hoq' & Eo).
      destruct (unlinked_children _ _ Eo) as [El Er].
      exists oq', l. rewrite El, Er. done.
  - intros p o Hp Hnone. apply elem_of_seq.
    pose proof (lookup_lt_Some _ _ _ Hp) as Hpl.
    destruct (decide (p < length h)) as [Hlt|Hge]; [exfalso|lia].
    destruct (decide (p ∈ row)) as [Hin|Hnin].
    + apply list_elem_of_lookup in Hin as [k Hk].
      destruct (Hpar k p Hk) as (o1 & Ho1 & Hpo1); [lia|]. congruence.
    + rewrite (Hother p Hlt Hnin) in Hp.
      apply Hnin. eauto.
Qed.

(** The [while] loop ends with a single element in the row. *)
Lemma buildLevels_spec (fuel : nat) :
  forall (row : list nat) (h : Heap),
    tree_inv sha384 h row -> row <> [] -> length row <= S fuel ->
    exists root h',
      buildLevels sha384 fuel row h = Ok ([root], h') /\
      extends h h' /\
      tree_inv sha384 h' [root].
Proof.
  induction fuel as [|fuel IH]; intros row h Hinv Hne Hfuel.
  - destruct row as [|root [|]]; simpl in *; try done; try lia.
    exists root, h. eauto using extends_refl.
  - cbn [buildLevels]. destruct (Nat.ltb_spec 1 (length row)) as [Hlt|Hge].
    + destruct (buildRow_inv h row Hinv)
        as (h1 & Hrun & Hlen & Hext & Hinv1 & _).
      destruct (IH _ h1 Hinv1) as (root & h' & Hrun' & Hext' & Hinv').
      { intros E. apply (f_equal length) in E.
        rewrite length_seq in E. cbn [length] in E. lia. }
      { rewrite length_seq. lia. }
      exists root, h'. unfold mbind, M_bind. rewrite Hrun, Hrun'.
      eauto using extends_trans.
    + destruct row as [|root [|]]; simpl in *; try done; try lia.
      exists root, h. eauto using extends_refl.
Qed.


Lemma makeLeaves_run (records : list RecordPtr) :
  forall (leaves row : list nat) (h : Heap),
    makeLeaves records leaves row h
    = Ok ((leaves ++ seq (length h) (length records),
           row ++ seq (length h) (length records)),
          h ++ leaf_objects records).
Proof.
  induction records as [|r records IH]; intros leaves row h; simpl.
  - by rewrite !app_nil_r.
  - unfold mbind, M_bind, make_shared. rewrite IH.
    rewrite length_app. simpl. rewrite Nat.add_1_r.
    by rewrite <- !app_assoc.
Qed.

Lemma leaf_objects_lookup (records : list RecordPtr) (i : nat) (r : RecordPtr) :
  records !! i = Some r ->
  leaf_objects records !! i
  = Some (LeafObj (mkNode None None None (Record_getHash r))
            (Record_getName r)).
Proof. intros Hi. unfold leaf_objects. by rewrite list_lookup_fmap, Hi. Qed.

Lemma leaf_objects_inv (records : list RecordPtr) :
  tree_inv sha384 (leaf_objects records) (seq 0 (length records)).
Proof.
  assert (forall p o, leaf_objects records !! p = Some o ->
            exists r, o = Leaf_ctor r None) as Hleaf.
  { intros p o Hp. unfold leaf_objects in Hp.
    rewrite list_lookup_fmap in Hp.
    destruct (records !! p) as [r|]; [|done]. injection Hp as <-. eauto. }
  split.
  - intros p o Hp. destruct (Hleaf _ _ Hp) as [r ->]. by split; [|split].
  - apply Forall_forall. intros p Hp. apply elem_of_seq in Hp.
    unfold leaf_objects. rewrite length_map. lia.
  - apply NoDup_seq.
  - intros p o l Hp. by destruct (Hleaf _ _ Hp) as [r ->].
  - intros p o q Hp. by destruct (Hleaf _ _ Hp) as [r ->].
  - intros p o Hp _. apply elem_of_seq. apply lookup_lt_Some in Hp.
    unfold leaf_objects in Hp. rewrite length_map in Hp. lia.
Qed.

(** The constructor succeeds on every non-empty record sequence.  The
    leaves sit at addresses [0 .. n-1] in record order, the root digest is
    the digest of the one object without a parent, and the store satisfies
    the invariant. *)
Lemma build_spec (records : list RecordPtr) :
  records <> [] ->
  exists (root : nat) (oroot : Object) (h : Heap),
    build sha384 records
    = Ok (mkTree (seq 0 (length records)) (hash_ (node_of oroot)), h) /\
    h !! root = Some oroot /\
    extends (leaf_objects records) h /\
    tree_inv sha384 h [root].
Proof.
  intros Hne. unfold build, MerkleTree_ctor, mbind, M_bind.
  rewrite makeLeaves_run. simpl.
  destruct (buildLevels_spec (length records) (seq 0 (length records))
              (leaf_objects records) (leaf_objects_inv records))
    as (root & h & Hrun & Hext & Hinv).
  { destruct records; [done|]. simpl. done. }
  { rewrite length_seq. lia. }
  pose proof (inv_row _ _ _ Hinv) as Hroot.
  apply Forall_cons in Hroot as [Hroot _].
  destruct (lookup_lt_is_Some_2 _ _ Hroot) as [oroot Horoot].
  exists root, oroot, h.
  unfold buildTree, mbind, M_bind, pure_, get, at_.
  rewrite length_seq, Hrun. simpl.
  rewrite (getHash_Some _ _ _ Horoot). done.
Qed.

End TreeConstruction.

(** ** Searching the leaves *)


Lemma sorted_names_head (a : string) (names : list string) :
  sorted_names (a :: names) = true ->
  forall k b, names !! k = Some b -> String.ltb a b = true.
Proof.
  revert a. induction names as [|c names IH]; intros a Hs k b Hk; [done|].
  simpl in Hs. apply andb_true_iff in Hs as [Hac Hs].
  destruct k as [|k]; simpl in Hk.
  - congruence.
  - eapply ltb_trans; [exact Hac|]. eapply IH; eauto.
Qed.

Lemma sorted_names_tail (a : string) (names : list string) :
  sorted_names (a :: names) = true -> sorted_names names = true.
Proof.
  destruct names as [|b names]; [done|]. simpl.
  intros H. by apply andb_true_iff in H as [_ H].
Qed.

Lemma sorted_names_lookup (names : list string) :
  sorted_names names = true ->
  forall i j a b, names !! i = Some a -> names !! j = Some b -> i < j ->
    String.ltb a b = true.
Proof.
  induction names as [|c names IH]; intros Hs i j a b Hi Hj Hij; [done|].
  destruct j as [|j]; [lia|]. simpl in Hj.
  destruct i as [|i]; simpl in Hi.
  - injection Hi as ->. eapply sorted_names_head; eauto.
  - eapply (IH (sorted_names_tail _ _ Hs) i j); eauto. lia.
Qed.

Section Search.

Variable h : Heap.
Variable leaves : list nat.
Variable names : list string.

(** The leaves carry the names, in order. *)
Hypothesis leaves_names :
  Forall2 (fun p s => getName h p = Ok s) leaves names.
Hypothesis names_sorted : sorted_names names = true.

Variable needle : string.

Lemma leaf_at (k : nat) :
  k < length leaves ->
  exists p s, leaves !! k = Some p /\ names !! k = Some s /\
              getName h p = Ok s.
Proof.
  intros Hk. destruct (lookup_lt_is_Some_2 _ _ Hk) as [p Hp].
  destruct (Forall2_lookup_l _ _ _ _ _ leaves_names Hp) as (s & Hs & Hn).
  eauto.
Qed.

(** [std::lower_bound] returns the first position whose name is not
    below the needle. *)
Lemma lower_bound_spec (fuel : nat) :
  forall first len,
    len <= fuel -> first + len <= length leaves ->
    (forall k a, k < first -> names !! k = Some a ->
       String.ltb a needle = true) ->
    (forall k a, first + len <= k -> names !! k = Some a ->
       String.ltb a needle = false) ->
    exists r,
      lower_bound fuel h leaves needle first len = Ok r /\
      r <= length leaves /\
      (forall k a, k < r -> names !! k = Some a ->
         String.ltb a needle = true) /\
      (forall k a, r <= k -> names !! k = Some a ->
         String.ltb a needle = false).
Proof.
  induction fuel as [|fuel IH]; intros first len Hfuel Hlen Hlo Hhi.
  - assert (len = 0) as -> by lia. simpl. exists first.
    rewrite Nat.add_0_r in *. split; [done|]. split; [lia|]. done.
  - cbn [lower_bound]. destruct (Nat.eqb_spec len 0) as [->|Hne].
    { exists first. rewrite Nat.add_0_r in *.
      split; [done|]. split; [lia|]. done. }
    destruct (leaf_at (first + len / 2)) as (p & s & Hp & Hs & Hn); [lia|].
    unfold at_. rewrite Hp. cbn [mbind Outcome_bind]. rewrite Hn.
    cbn [mbind Outcome_bind]. unfold isLessThan.
    destruct (String.ltb s needle) eqn:Hlt.
    + apply IH; [lia | lia | | ].
      * intros k a Hk Ha.
        destruct (decide (k = first + len / 2)) as [->|Hkm]; [congruence|].
        eapply ltb_trans; [|exact Hlt].
        eapply (sorted_names_lookup _ names_sorted k (first + len / 2));
          eauto. lia.
      * intros k a Hk Ha. apply (Hhi k a); [lia | done].
    + apply IH; [lia | lia | done | ].
      intros k a Hk Ha.
      destruct (decide (k = first + len / 2)) as [->|Hkm]; [congruence|].
      destruct (String.ltb a needle) eqn:Han; [|done].
      rewrite <- Hlt. symmetry. eapply ltb_trans; [|exact Han].
      eapply (sorted_names_lookup _ names_sorted (first + len / 2) k);
        eauto. lia.
Qed.

(** [std::upper_bound] returns the first position whose name is above
    the needle. *)
Lemma upper_bound_spec (fuel : nat) :
  forall first len,
    len <= fuel -> first + len <= length leaves ->
    (forall k a, k < first -> names !! k = Some a ->
       String.ltb needle a = false) ->
    (forall k a, first + len <= k -> names !! k = Some a ->
       String.ltb needle a = true) ->
    exists r,
      upper_bound fuel h leaves needle first len = Ok r /\
      r <= length leaves /\
      (forall k a, k < r -> names !! k = Some a ->
         String.ltb needle a = false) /\
      (forall k a, r <= k -> names !! k = Some a ->
         String.ltb needle a = true).
Proof.
  induction fuel as [|fuel IH]; intros first len Hfuel Hlen Hlo Hhi.
  - assert (len = 0) as -> by lia. simpl. exists first.
    rewrite Nat.add_0_r in *. split; [done|]. split; [lia|]. done.
  - cbn [upper_bound]. destruct (Nat.eqb_spec len 0) as [->|Hne].
    { exists first. rewrite Nat.add_0_r in *.
      split; [done|]. split; [lia|]. done. }
    destruct (leaf_at (first + len / 2)) as (p & s & Hp & Hs & Hn); [lia|].
    unfold at_. rewrite Hp. cbn [mbind Outcome_bind]. rewrite Hn.
    cbn [mbind Outcome_bind]. unfold isLessThan.
    destruct (String.ltb needle s) eqn:Hlt.
    + apply IH; [lia | lia | done | ].
      intros k a Hk Ha.
      destruct (decide (k = first + len / 2)) as [->|Hkm]; [congruence|].
      eapply ltb_trans; [exact Hlt|].
      eapply (sorted_names_lookup _ names_sorted (first + len / 2) k);
        eauto. lia.
    + apply IH; [lia | lia | | ].
      * intros k a Hk Ha.
        destruct (decide (k = first + len / 2)) as [->|Hkm]; [congruence|].
        destruct (String.ltb needle a) eqn:Han; [|done].
        rewrite <- Hlt. symmetry. eapply ltb_trans; [exact Han|].
        eapply (sorted_names_lookup _ names_sorted k (first + len / 2));
          eauto. lia.
      * intros k a Hk Ha. apply (Hhi k a); [lia | done].
Qed.

(** Over the whole range: the position of the first name that is not
    below the needle ... *)
Lemma lower_bound_whole :
  exists r,
    lower_bound (length leaves) h leaves needle 0 (length leaves) = Ok r /\
    r <= length leaves /\
    (forall k a, k < r -> names !! k = Some a ->
       String.ltb a needle = true) /\
    (forall k a, r <= k -> names !! k = Some a ->
       String.ltb a needle = false).
Proof.
  apply lower_bound_spec; [lia | lia | intros; lia |].
  intros k a Hk Ha. apply lookup_lt_Some in Ha.
  rewrite <- (Forall2_length _ _ _ leaves_names) in Ha. simpl in Hk. lia.
Qed.

(** ... and of the first name above it. *)
Lemma upper_bound_whole :
  exists r,
    upper_bound (length leaves) h leaves needle 0 (length leaves) = Ok r /\
    r <= length leaves /\
    (forall k a, k < r -> names !! k = Some a ->
       String.ltb needle a = false) /\
    (forall k a, r <= k -> names !! k = Some a ->
       String.ltb needle a = true).
Proof.
  apply upper_bound_spec; [lia | lia | intros; lia |].
  intros k a Hk Ha. apply lookup_lt_Some in Ha.
  rewrite <- (Forall2_length _ _ _ leaves_names) in Ha. simpl in Hk. lia.
Qed.

(** A name that is present is found at its own position. *)
Lemma lower_bound_found (i : nat) :
  names !! i = Some needle ->
  lower_bound (length leaves) h leaves needle 0 (length leaves) = Ok i.
Proof.
  intros Hi. destruct lower_bound_whole as (r & -> & Hr & Hlo & Hhi).
  f_equal. destruct (lt_eq_lt_dec r i) as [[Hlt|<-]|Hgt]; [| done |].
  - destruct (lookup_lt_is_Some_2 names r) as [a Ha].
    { apply lookup_lt_Some in Hi. lia. }
    pose proof (sorted_names_lookup _ names_sorted r i _ _ Ha Hi Hlt).
    pose proof (Hhi r a (le_n _) Ha). congruence.
  - pose proof (Hlo i needle Hgt Hi) as H. by rewrite ltb_irrefl in H.
Qed.

(** For a name that is absent, both searches return the same position:
    that of the first name above the needle. *)
Lemma bounds_absent :
  needle ∉ names ->
  exists r,
    lower_bound (length leaves) h leaves needle 0 (length leaves) = Ok r /\
    upper_bound (length leaves) h leaves needle 0 (length leaves) = Ok r /\
    r <= length leaves /\
    (forall k a, k < r -> names !! k = Some a ->
       String.ltb a needle = true) /\
    (forall k a, r <= k -> names !! k = Some a ->
       String.ltb needle a = true).
Proof.
  intros Habs.
  destruct lower_bound_whole as (r & Hrun & Hr & Hlo & Hhi).
  destruct upper_bound_whole as (r' & Hrun' & Hr' & Hlo' & Hhi').
  assert (forall k a, r <= k -> names !! k = Some a ->
            String.ltb needle a = true) as Habove.
  { intros k a Hk Ha. destruct (String.ltb needle a) eqn:E; [done|].
    exfalso. apply Habs. rewrite <- (ltb_total _ _ (Hhi k a Hk Ha) E).
    apply list_elem_of_lookup. eauto. }
  assert (r' = r) as ->.
  { pose proof (Forall2_length _ _ _ leaves_names) as Hlen.
    destruct (lt_eq_lt_dec r r') as [[Hlt|<-]|Hgt]; [| done |].
    - destruct (lookup_lt_is_Some_2 names r) as [a Ha]; [lia|].
      pose proof (Hlo' r a Hlt Ha). pose proof (Habove r a (le_n _) Ha).
      congruence.
    - destruct (lookup_lt_is_Some_2 names r') as [a Ha]; [lia|].
      pose proof (Hhi' r' a (le_n _) Ha) as H1.
      pose proof (ltb_asym _ _ (Hlo r' a Hgt Ha)). congruence. }
  exists r. eauto.
Qed.

End Search.

(** ** Paths *)


Section Paths.

Variable base64_encode : list byte -> string.


Lemma getBase64Hash_Some (h : Heap) (p : nat) (o : Object) :
  h !! p = Some o ->
  getBase64Hash base64_encode h p
  = Ok (base64_encode (data (hash_ (node_of o)))).
Proof.
  intros Hp. unfold getBase64Hash. rewrite (getHash_Some _ _ _ Hp).
  simpl. by rewrite firstn_data.
Qed.

Lemma asValue_run (h : Heap) (p : nat) (o : Object) :
  h !! p = Some o ->
  (forall c, leftChild_ (node_of o) = Some c -> is_Some (h !! c)) ->
  (forall c, rightChild_ (node_of o) = Some c -> is_Some (h !! c)) ->
  asValue base64_encode h p = Ok (node_entry base64_encode h p).
Proof.
  intros Hp Hl Hr. unfold asValue, node_entry.
  rewrite (deref_Some _ _ _ Hp), Hp. cbn [mbind Outcome_bind].
  destruct (leftChild_ (node_of o)) as [l|];
    destruct (rightChild_ (node_of o)) as [r|]; simpl.
  - destruct (Hl l eq_refl) as [ol Hol]. destruct (Hr r eq_refl) as [or Hor].
    rewrite Hol, Hor, (getBase64Hash_Some _ _ _ Hol),
      (getBase64Hash_Some _ _ _ Hor). done.
  - destruct (Hl l eq_refl) as [ol Hol].
    rewrite Hol, (getBase64Hash_Some _ _ _ Hol). done.
  - destruct (Hr r eq_refl) as [or Hor].
    rewrite Hor, (getBase64Hash_Some _ _ _ Hor). done.
  - done.
Qed.

Lemma asValue_wf (h : Heap) (p : nat) :
  wf_heap h -> p < length h ->
  asValue base64_encode h p = Ok (node_entry base64_encode h p).
Proof.
  intros Hwf Hp. destruct (lookup_lt_is_Some_2 _ _ Hp) as [o Ho].
  destruct (Hwf _ _ Ho) as (_ & Hl & Hr).
  apply (asValue_run h p o Ho); intros c Hc; apply lookup_lt_is_Some.
  - specialize (Hl c Hc). lia.
  - specialize (Hr c Hc). lia.
Qed.

(** The walk to the root terminates within the fuel [generatePath] gives
    it, and appends one entry per object visited. *)
Lemma walkUp_run (h : Heap) (fuel : nat) :
  wf_heap h ->
  forall (p : nat) (acc : list Json),
    p < length h -> length h <= fuel + p ->
    walkUp base64_encode fuel h (Some p) (JArray acc)
    = Ok (JArray (acc ++ map (node_entry base64_encode h) (ancestors fuel h p))).
Proof.
  intros Hwf. induction fuel as [|fuel IH]; intros p acc Hp Hfuel; [lia|].
  cbn [walkUp ancestors]. rewrite (asValue_wf h p Hwf Hp).
  cbn [mbind Outcome_bind Json_append].
  destruct (lookup_lt_is_Some_2 _ _ Hp) as [o Ho].
  rewrite (getParent_Some _ _ _ Ho), Ho. cbn [mbind Outcome_bind].
  destruct (parent_ (node_of o)) as [q|] eqn:Hq.
  - destruct (Hwf _ _ Ho) as (Hpar & _). specialize (Hpar q Hq).
    rewrite IH by lia. cbn [map]. by rewrite <- app_assoc.
  - by destruct fuel.
Qed.

Lemma generatePath_run (h : Heap) (p : nat) (n : Node) (s : string) :
  wf_heap h -> h !! p = Some (LeafObj n s) ->
  generatePath base64_encode h p
  = Ok (JArray (leaf_entry s (base64_encode (data (hash_ n)))
                  :: map (node_entry base64_encode h) (ancestors (length h) h p))).
Proof.
  intros Hwf Hp. unfold generatePath.
  rewrite (getName_Some _ _ _ _ Hp), (getBase64Hash_Some _ _ _ Hp).
  cbn [mbind Outcome_bind Json_set Json_append members_insert].
  replace (String.compare "hash" "name") with Lt by done.
  rewrite (walkUp_run h (length h) Hwf); [done | | lia].
  by apply lookup_lt_Some in Hp.
Qed.

(** Whatever the store, the walk only appends to the array it is given. *)
Lemma walkUp_shape (h : Heap) (fuel : nat) :
  forall (node : NodePtr) (acc : list Json) (v : Json),
    walkUp base64_encode fuel h node (JArray acc) = Ok v ->
    exists rest, v = JArray (acc ++ rest).
Proof.
  induction fuel as [|fuel IH]; intros [p|] acc v; simpl; try done.
  - intros [= <-]. exists []. by rewrite app_nil_r.
  - destruct (asValue base64_encode h p) as [x|]; [|done].
    cbn [mbind Outcome_bind Json_append].
    destruct (getParent h p) as [q|]; [|done]. cbn [mbind Outcome_bind].
    intros Hrun. destruct (IH _ _ _ Hrun) as [rest ->].
    exists (x :: rest). by rewrite <- app_assoc.
  - intros [= <-]. exists []. by rewrite app_nil_r.
Qed.

Lemma generatePath_shape (h : Heap) (p : nat) (v : Json) :
  generatePath base64_encode h p = Ok v ->
  exists name d rest,
    getName h p = Ok name /\ getHash h p = Ok d /\
    v = JArray (leaf_entry name (base64_encode (data d)) :: rest).
Proof.
  unfold generatePath, getBase64Hash.
  destruct (getName h p) as [name|]; [|done].
  destruct (getHash h p) as [d|]; [|done].
  cbn [mbind mret Outcome_ret Outcome_bind Json_set Json_append
       members_insert].
  replace (String.compare "hash" "name") with Lt by done.
  rewrite firstn_data. intros Hrun.
  destruct (walkUp_shape _ _ _ _ _ Hrun) as [rest ->].
  exists name, d, rest. done.
Qed.

End Paths.

(** ** Queries against a constructed tree *)

Section Queries.

Variable sha384 : list byte -> SHA384_HASH.
Variable base64_encode : list byte -> string.

(** What the constructor leaves behind, for non-empty input. *)
Lemma build_leaves (records : list RecordPtr) :
  records <> [] ->
  exists (root : nat) (oroot : Object) (h : Heap),
    build sha384 records
    = Ok (mkTree (seq 0 (length records)) (hash_ (node_of oroot)), h) /\
    h !! root = Some oroot /\
    tree_inv sha384 h [root] /\
    (forall i r, records !! i = Some r ->
       exists n, h !! i = Some (LeafObj n (Record_getName r)) /\
                 hash_ n = Record_getHash r /\
                 leftChild_ n = None /\ rightChild_ n = None) /\
    Forall2 (fun p s => getName h p = Ok s)
      (seq 0 (length records)) (map Record_getName records).
Proof.
  intros Hne.
  destruct (build_spec sha384 records Hne)
    as (root & oroot & h & Hrun & Hroot & Hext & Hinv).
  exists root, oroot, h. split; [done|]. split; [done|]. split; [done|].
  assert (forall i r, records !! i = Some r ->
            exists n, h !! i = Some (LeafObj n (Record_getName r)) /\
                      hash_ n = Record_getHash r /\
                      leftChild_ n = None /\ rightChild_ n = None) as Hleaf.
  { intros i r Hi.
    destruct (Hext _ _ (leaf_objects_lookup records i r Hi))
      as (o' & Ho' & Eo).
    destruct o' as [n|n s]; simpl in Eo; [done|].
    injection Eo as E1 E2 E3 E4. subst s. exists n. done. }
  split; [done|].
  apply Forall2_same_length_lookup. split.
  - by rewrite length_seq, length_map.
  - intros i p s Hp Hs. apply lookup_seq in Hp as [-> Hi]. simpl.
    rewrite list_lookup_fmap in Hs.
    destruct (records !! i) as [r|] eqn:Hr; [|done]. injection Hs as <-.
    destruct (Hleaf _ _ Hr) as (n & Hn & _).
    by rewrite (getName_Some _ _ _ _ Hn).
Qed.

(** Querying the name of the [i]-th record returns the path of the
    [i]-th leaf. *)
Lemma query_present (records : list RecordPtr) (i : nat) (r : RecordPtr) :
  sorted_records records = true ->
  records !! i = Some r ->
  exists t h n,
    build sha384 records = Ok (t, h) /\
    leaves_ t !! i = Some i /\
    h !! i = Some (LeafObj n (Record_getName r)) /\
    hash_ n = Record_getHash r /\
    generateSubtree base64_encode h t (Record_getName r)
    = Ok (JArray (leaf_entry (Record_getName r)
                    (base64_encode (data (Record_getHash r)))
                  :: map (node_entry base64_encode h)
                       (ancestors (length h) h i))).
Proof.
  intros Hsorted Hi.
  assert (records <> []) as Hne by (intros ->; done).
  destruct (build_leaves records Hne)
    as (root & oroot & h & Hrun & Hroot & Hinv & Hleaf & Hnames).
  destruct (Hleaf _ _ Hi) as (n & Hn & Hhash & _).
  pose proof (lookup_lt_Some _ _ _ Hi) as Hlt.
  eexists _, h, n. split; [exact Hrun|]. cbn [leaves_].
  split; [by apply lookup_seq|]. split; [done|]. split; [done|].
  unfold generateSubtree. cbn [leaves_].
  rewrite bool_decide_eq_false_2.
  2:{ intros E. apply (f_equal length) in E. rewrite length_seq in E.
      simpl in E. lia. }
  rewrite (lower_bound_found h _ _ Hnames Hsorted _ i).
  2:{ by rewrite list_lookup_fmap, Hi. }
  cbn [mbind Outcome_bind]. rewrite length_seq.
  destruct (Nat.eqb_spec i (length records)) as [->|_]; [lia|].
  cbn [negb]. unfold at_. rewrite lookup_seq_lt by done.
  cbn [mbind Outcome_bind Nat.add]. rewrite (getName_Some _ _ _ _ Hn).
  cbn [mbind Outcome_bind]. unfold isLessThan. rewrite ltb_irrefl.
  cbn [negb]. rewrite <- Hhash.
  apply generatePath_run; [apply Hinv | done].
Qed.

(** Querying a name that no leaf has, when some leaf lies above it:
    both searches stop at that leaf, and the span holds its path
    twice. *)
Lemma query_absent_below (records : list RecordPtr) (name : string) :
  sorted_records records = true ->
  name ∉ map Record_getName records ->
  (exists r, r ∈ records /\ String.ltb name (Record_getName r) = true) ->
  exists t h k r n path,
    build sha384 records = Ok (t, h) /\
    records !! k = Some r /\
    String.ltb name (Record_getName r) = true /\
    (forall j r', j < k -> records !! j = Some r' ->
       String.ltb (Record_getName r') name = true) /\
    h !! k = Some (LeafObj n (Record_getName r)) /\
    generatePath base64_encode h k = Ok path /\
    generateSubtree base64_encode h t name
    = Ok (JObject [("left", path); ("right", path)]).
Proof.
  intros Hsorted Habs (r0 & Hr0 & Hlt0).
  assert (records <> []) as Hne by (intros ->; by apply elem_of_nil in Hr0).
  destruct (build_leaves records Hne)
    as (root & oroot & h & Hrun & Hroot & Hinv & Hleaf & Hnames).
  destruct (bounds_absent h _ _ Hnames Hsorted name Habs)
    as (k & Hlb & Hub & Hk & Hlo & Hhi).
  rewrite length_seq in *.
  assert (k < length records) as Hklt.
  { apply list_elem_of_lookup in Hr0 as [j Hj].
    pose proof (lookup_lt_Some _ _ _ Hj).
    destruct (decide (k < length records)); [done|].
    assert (String.ltb (Record_getName r0) name = true) as H1.
    { apply (Hlo j); [lia|]. by rewrite list_lookup_fmap, Hj. }
    pose proof (ltb_asym _ _ H1). congruence. }
  destruct (lookup_lt_is_Some_2 _ _ Hklt) as [r Hr].
  destruct (Hleaf _ _ Hr) as (n & Hn & Hhash & _).
  assert (String.ltb name (Record_getName r) = true) as Hlt.
  { apply (Hhi k); [lia|]. by rewrite list_lookup_fmap, Hr. }
  pose proof (generatePath_run base64_encode h k n _ (inv_wf _ _ _ Hinv) Hn)
    as Hpath.
  eexists _, h, k, r, n, _.
  split; [exact Hrun|]. split; [done|]. split; [done|].
  split.
  { intros j r' Hj Hr'. apply (Hlo j); [done|].
    by rewrite list_lookup_fmap, Hr'. }
  split; [done|]. split; [exact Hpath|].
  unfold generateSubtree, generateSpan. cbn [leaves_].
  rewrite bool_decide_eq_false_2.
  2:{ intros E. apply (f_equal length) in E. rewrite length_seq in E.
      simpl in E. lia. }
  rewrite length_seq, Hlb, Hub. cbn [mbind Outcome_bind].
  destruct (Nat.eqb_spec k (length records)) as [->|_]; [lia|].
  cbn [negb]. unfold at_. rewrite lookup_seq_lt by done.
  cbn [mbind Outcome_bind Nat.add]. rewrite (getName_Some _ _ _ _ Hn).
  cbn [mbind Outcome_bind]. unfold isLessThan. rewrite Hlt.
  cbn [negb]. rewrite Hpath. done.
Qed.

(** Querying a name above every leaf: [lower_bound] returns the end
    iterator, which [generateSpan] dereferences. *)
Lemma query_absent_above (records : list RecordPtr) (name : string) :
  sorted_records records = true ->
  records <> [] ->
  (forall r, r ∈ records -> String.ltb (Record_getName r) name = true) ->
  exists t h,
    build sha384 records = Ok (t, h) /\
    generateSubtree base64_encode h t name = Undefined OutOfRange.
Proof.
  intros Hsorted Hne Hall.
  destruct (build_leaves records Hne)
    as (root & oroot & h & Hrun & Hroot & Hinv & Hleaf & Hnames).
  assert (name ∉ map Record_getName records) as Habs.
  { intros Hin. apply list_elem_of_fmap in Hin as (r & -> & Hr).
    pose proof (Hall r Hr) as H. by rewrite ltb_irrefl in H. }
  destruct (bounds_absent h _ _ Hnames Hsorted name Habs)
    as (k & Hlb & Hub & Hk & Hlo & Hhi).
  rewrite length_seq in *.
  assert (k = length records) as ->.
  { destruct (decide (k = length records)); [done|].
    destruct (lookup_lt_is_Some_2 records k) as [r Hr]; [lia|].
    assert (String.ltb name (Record_getName r) = true) as H1.
    { apply (Hhi k); [lia|]. by rewrite list_lookup_fmap, Hr. }
    pose proof (ltb_asym _ _ H1) as H2.
    rewrite Hall in H2; [done|]. apply list_elem_of_lookup. eauto. }
  eexists _, h. split; [exact Hrun|].
  unfold generateSubtree, generateSpan. cbn [leaves_].
  rewrite bool_decide_eq_false_2.
  2:{ intros E. apply (f_equal length) in E. rewrite length_seq in E.
      destruct records; simpl in E; [done | lia]. }
  rewrite length_seq, Hlb, Hub. cbn [mbind Outcome_bind].
  rewrite Nat.eqb_refl. cbn [negb mbind Outcome_bind].
  unfold at_. by rewrite lookup_seq_ge.
Qed.

End Queries.

(** ** The walk from a leaf reaches the root *)

Section Chain.

Variable sha384 : list byte -> SHA384_HASH.


Lemma ancestors_chain (h : Heap) (root : nat) (fuel : nat) :
  tree_inv sha384 h [root] ->
  forall p, p < length h -> length h <= fuel + p ->
    last (ancestors fuel h p) = Some root /\
    forall m a b,
      ancestors fuel h p !! m = Some a ->
      ancestors fuel h p !! S m = Some b ->
      parent_step sha384 h a b.
Proof.
  intros Hinv. induction fuel as [|fuel IH]; intros p Hp Hfuel; [lia|].
  destruct (lookup_lt_is_Some_2 _ _ Hp) as [o Ho].
  cbn [ancestors]. rewrite Ho.
  destruct (parent_ (node_of o)) as [q|] eqn:Hq.
  - destruct (inv_wf _ _ _ Hinv _ _ Ho) as (Hpar & _).
    specialize (Hpar q Hq).
    destruct (IH q) as (Hlast & Hsteps); [lia | lia |].
    assert (exists x rest, ancestors fuel h q = x :: rest) as (x & rest & E).
    { destruct fuel; [lia|]. simpl. eauto. }
    split.
    + rewrite E in *. by rewrite last_cons, Hlast.
    + intros [|m] a b Ha Hb; simpl in Ha, Hb.
      * injection Ha as <-.
        assert (b = q) as ->.
        { destruct fuel; [lia|]. simpl in Hb. congruence. }
        destruct (inv_parent _ _ _ Hinv _ _ _ Ho Hq)
          as (oq & l & Hoq & Hl & Hc).
        destruct (inv_hash _ _ _ Hinv _ _ _ Hoq Hl) as (dl & dr & H1 & H2 & H3).
        exists o, oq, l, dl, dr. done.
      * eapply Hsteps; eauto.
  - split; [|by intros [|m] a b Ha Hb].
    simpl. f_equal.
    pose proof (inv_roots _ _ _ Hinv _ _ Ho Hq) as Hin.
    by apply list_elem_of_singleton in Hin.
Qed.

(** In a constructed tree, the walk [generatePath] makes from any leaf
    climbs parent by parent, each carrying the digest of its children, and
    ends at the object whose digest is the root digest. *)
Lemma build_walk_reaches_root (records : list RecordPtr) (i : nat) :
  i < length records ->
  exists t h root,
    build sha384 records = Ok (t, h) /\
    last (ancestors (length h) h i) = Some root /\
    getHash h root = Ok (getRootHash t) /\
    getParent h root = Ok None /\
    forall m a b,
      ancestors (length h) h i !! m = Some a ->
      ancestors (length h) h i !! S m = Some b ->
      parent_step sha384 h a b.
Proof.
  intros Hi.
  assert (records <> []) as Hne by (intros ->; simpl in Hi; lia).
  destruct (build_spec sha384 records Hne)
    as (root & oroot & h & Hrun & Hroot & Hext & Hinv).
  assert (i < length h) as Hih.
  { pose proof (extends_length _ _ Hext) as Hlen.
    unfold leaf_objects in Hlen. rewrite length_map in Hlen. lia. }
  destruct (ancestors_chain h root (length h) Hinv i Hih) as (Hlast & Hsteps);
    [lia|].
  eexists _, h, root. split; [exact Hrun|]. split; [done|].
  split; [by rewrite (getHash_Some _ _ _ Hroot)|]. split; [|done].
  rewrite (getParent_Some _ _ _ Hroot). f_equal.
  destruct (parent_ (node_of oroot)) as [q|] eqn:Hq; [|done].
  (* the root is the last object visited, so it has no parent *)
  exfalso.
  assert (forall fuel p, p < length h -> length h <= fuel + p ->
            forall x, last (ancestors fuel h p) = Some x ->
              exists ox, h !! x = Some ox /\ parent_ (node_of ox) = None)
    as Hend.
  { induction fuel as [|fuel IH]; intros p Hp Hfuel x; [lia|].
    destruct (lookup_lt_is_Some_2 _ _ Hp) as [o Ho].
    cbn [ancestors]. rewrite Ho.
    destruct (parent_ (node_of o)) as [q'|] eqn:Hq'.
    - destruct (inv_wf _ _ _ Hinv _ _ Ho) as (Hpar & _).
      specialize (Hpar q' Hq').
      assert (exists y rest, ancestors fuel h q' = y :: rest)
        as (y & rest & E).
      { destruct fuel; [lia|]. simpl. eauto. }
      rewrite E, last_cons, <- E.
      destruct (last (ancestors fuel h q')) as [z|] eqn:Hz.
      + intros [= <-]. eapply IH; [| |exact Hz]; lia.
      + rewrite E in Hz. by rewrite last_cons in Hz; destruct (last rest).
    - simpl. intros [= <-]. eauto. }
  destruct (Hend (length h) i Hih (Nat.le_add_r _ _) root Hlast)
    as (ox & Hox & Hnone).
  congruence.
Qed.

End Chain.


(** * Specified behaviour *)

Section Specification.

Variable sha384 : list byte -> SHA384_HASH.
Variable base64_encode : list byte -> string.

(** C1 (as the code has it): [verifySubtree] and [verifyRoot] are stubs.
    Whatever the proof, the record and the root, both return [true]; no
    proof is ever rejected. *)
Theorem verification_accepts_every_proof
    (proof : Json) (record : RecordPtr) (root : string) :
  verifySubtree proof record = true /\ verifyRoot proof root = true.
Proof. split; reflexivity. Qed.


(** C3 (as the code has it): with leaves "a", "b", "c", "d", the query
    for "b5" returns a span whose two components are both the path of
    leaf "c", the leaf at which [lower_bound] and [upper_bound] stop.
    The path of "b", the nearest leaf below the name, is not in it. *)
Theorem span_between_leaves_repeats_upper (da db dc dd : SHA384_HASH) :
  exists t h path_b path_c,
    build sha384 [mkRecord "a" da; mkRecord "b" db;
                  mkRecord "c" dc; mkRecord "d" dd] = Ok (t, h) /\
    generatePath base64_encode h 1 = Ok path_b /\
    generatePath base64_encode h 2 = Ok path_c /\
    getName h 1 = Ok "b" /\ getName h 2 = Ok "c" /\
    path_b <> path_c /\
    generateSubtree base64_encode h t "b5"
    = Ok (JObject [("left", path_c); ("right", path_c)]).
Proof.
  eexists _, _, _, _. split; [vm_compute; reflexivity|].
  split; [vm_compute; reflexivity|].
  split; [vm_compute; reflexivity|].
  split; [reflexivity|]. split; [reflexivity|].
  split; [|vm_compute; reflexivity].
  intros E.
  apply (f_equal (fun v => match v with
                           | JArray (JObject [_; (_, JString s)] :: _) => s
                           | _ => ""
                           end)) in E.
  discriminate E.
Qed.


(** C5 (as the code has it): on an empty record sequence no leaf is made,
    the loop of [buildTree] is skipped, and [row[0]] is read from the empty
    row: the constructor leaves defined behaviour. *)
Theorem build_empty_reads_out_of_range :
  makeLeaves [] [] [] [] = Ok (([], []), []) /\
  buildLevels sha384 0 [] [] = Ok ([], []) /\
  at_ ([] : list nat) 0 = Undefined OutOfRange /\
  build sha384 [] = Undefined OutOfRange.
Proof. repeat split; reflexivity. Qed.

(** C6 (as the code has it): with leaves "a", "b", "c", "d", the query
    for "e", above every leaf, dereferences the end iterator of the leaf
    vector; the query for "0", below every leaf, returns a span with both
    components, each the path of leaf "a". *)
Theorem span_outside_range (da db dc dd : SHA384_HASH) :
  exists t h path_a,
    build sha384 [mkRecord "a" da; mkRecord "b" db;
                  mkRecord "c" dc; mkRecord "d" dd] = Ok (t, h) /\
    generateSubtree base64_encode h t "e" = Undefined OutOfRange /\
    generatePath base64_encode h 0 = Ok path_a /\
    generateSubtree base64_encode h t "0"
    = Ok (JObject [("left", path_a); ("right", path_a)]).
Proof.
  eexists _, _, _. split; [vm_compute; reflexivity|].
  split; [vm_compute; reflexivity|].
  split; vm_compute; reflexivity.
Qed.

(** C7: one pass over a row pairs [row[2i]] with [row[2i+1]] into a node
    whose digest is the hash of the left digest followed by the right one;
    the next row has half the size, rounded up, and the last element of an
    odd row is paired with itself.  For three leaves the root digest is
    [Hash(Hash(L0 ‖ L1) ‖ Hash(L2 ‖ L2))]. *)
Theorem row_pairing_digests :
  (forall (h : Heap) (row : list nat),
     tree_inv sha384 h row ->
     exists nextRow h',
       buildRow sha384 (length row) 0 row [] h = Ok (nextRow, h') /\
       length nextRow = (length row + 1) / 2 /\
       forall i node, nextRow !! i = Some node ->
         exists lc dl dr,
           row !! (2 * i) = Some lc /\
           getHash h lc = Ok dl /\
           getHash h (default lc (row !! (2 * i + 1))) = Ok dr /\
           getHash h' node = Ok (sha384 (data dl ++ data dr))) /\
  (forall r0 r1 r2 : RecordPtr,
     exists t h3,
       build sha384 [r0; r1; r2] = Ok (t, h3) /\
       getRootHash t
       = sha384 (data (sha384 (data (Record_getHash r0)
                               ++ data (Record_getHash r1)))
                 ++ data (sha384 (data (Record_getHash r2)
                                  ++ data (Record_getHash r2))))).
Proof.
  split.
  - intros h row Hinv.
    destruct (buildRow_inv sha384 h row Hinv)
      as (h' & Hrun & Hlen & Hext & Hinv' & Hnodes).
    eexists _, h'. split; [exact Hrun|]. split; [by rewrite length_seq|].
    intros i node Hi. apply lookup_seq in Hi as [-> Hi].
    destruct (Hnodes i Hi) as (o & Ho & l & dl & dr & Hl & Hdl & Hdr & ->).
    exists l, dl, dr. split; [done|]. split; [done|]. split; [done|].
    by rewrite (getHash_Some _ _ _ Ho).
  - intros r0 r1 r2. eexists _, _. split.
    + cbv -[firstn Const.SHA384_LEN data Record_getHash].
      rewrite !firstn_data. reflexivity.
    + reflexivity.
Qed.

(** C8: for a single record the loop of [buildTree] does nothing: the
    store holds the leaf alone and the root digest is the leaf's digest.
    The path for that leaf holds the leaf entry and the leaf's own empty
    entry; no entry carries a sibling digest. *)
Theorem single_leaf_tree (r : RecordPtr) :
  build sha384 [r]
  = Ok (mkTree [0] (Record_getHash r), [Leaf_ctor r None]) /\
  (forall fuel p h, buildLevels sha384 fuel [p] h = Ok ([p], h)) /\
  generateSubtree base64_encode [Leaf_ctor r None]
    (mkTree [0] (Record_getHash r)) (Record_getName r)
  = Ok (JArray [leaf_entry (Record_getName r)
                  (base64_encode (data (Record_getHash r)));
                JNull]) /\
  sibling_steps
    (JArray [leaf_entry (Record_getName r)
               (base64_encode (data (Record_getHash r)));
             JNull]) = [].
Proof.
  split; [reflexivity|]. split; [by intros [|fuel] p h|].
  split; [|reflexivity].
  destruct (query_present sha384 base64_encode [r] 0 r)
    as (t & h & n & Hrun & _ & _ & _ & Hquery); [done | done |].
  assert (build sha384 [r]
          = Ok (mkTree [0] (Record_getHash r), [Leaf_ctor r None])) as E
    by reflexivity.
  rewrite E in Hrun. injection Hrun as <- <-. exact Hquery.
Qed.

(** C9: a query against a tree without leaves returns the null value,
    whatever the name: not a fault, not a path (paths are arrays) and not
    a span (spans are objects).  No path and no span is ever null. *)
Theorem empty_tree_query (h : Heap) (t : MerkleTree) (name : string) :
  leaves_ t = [] ->
  generateSubtree base64_encode h t name = Ok JNull /\
  is_path JNull = false /\ is_span JNull = false /\
  (forall h' leaf v,
     generatePath base64_encode h' leaf = Ok v -> is_path v = true) /\
  (forall h' t' needle lowerBound v,
     generateSpan base64_encode h' t' needle lowerBound = Ok v ->
     is_span v = true).
Proof.
  intros Hempty. split.
  { unfold generateSubtree. by rewrite Hempty. }
  split; [done|]. split; [done|]. split.
  - intros h' leaf v Hrun.
    by destruct (generatePath_shape _ _ _ _ Hrun) as (? & ? & ? & _ & _ & ->).
  - intros h' t' needle lowerBound v. unfold generateSpan.
    destruct (upper_bound _ _ _ _ _ _) as [ub|]; [|done].
    cbn [mbind Outcome_bind].
    destruct (at_ (leaves_ t') lowerBound) as [lb|]; [|done].
    cbn [mbind Outcome_bind].
    destruct (generatePath base64_encode h' lb) as [lp|]; [|done].
    cbn [mbind Outcome_bind].
    destruct (at_ (leaves_ t') ub) as [ub'|]; [|done].
    cbn [mbind Outcome_bind].
    destruct (generatePath base64_encode h' ub') as [up|]; [|done].
    cbn [mbind Outcome_bind Json_set]. by intros [= <-].
Qed.

End Specification.

Section SelfPairing.

Variable sha384 : list byte -> SHA384_HASH.
Variable base64_encode : list byte -> string.

Lemma encoded_getHash (h : Heap) (p : nat) (d : SHA384_HASH) :
  getHash h p = Ok d ->
  encoded base64_encode h (Some p) = Some (base64_encode (data d)).
Proof.
  unfold getHash, deref, encoded. destruct (h !! p) as [o|]; [|done].
  simpl. by intros [= <-].
Qed.


Lemma entry_everywhere_intro (h' : Heap) (node : nat) (o : Object)
    (e : Json) :
  h' !! node = Some o ->
  (forall h'', extends h' h'' ->
     sibling_entry (encoded base64_encode h'' (leftChild_ (node_of o)))
                   (encoded base64_encode h'' (rightChild_ (node_of o)))
     = e) ->
  entry_everywhere base64_encode h' node e.
Proof.
  intros Ho He h'' Hext Hwf.
  destruct (Hext _ _ Ho) as (o'' & Ho'' & Eo).
  destruct (unlinked_children _ _ Eo) as [El Er].
  assert (node_entry base64_encode h'' node = e) as Hentry.
  { unfold node_entry. rewrite Ho'', El, Er. by apply He. }
  split.
  - rewrite asValue_wf; [by rewrite Hentry | done |].
    by apply lookup_lt_Some in Ho''.
  - intros leaf n s m Hleaf Hm.
    rewrite (generatePath_run base64_encode h'' leaf n s Hwf Hleaf).
    eexists. split; [done|].
    change (map (node_entry base64_encode h'')
              (ancestors (length h'') h'' leaf) !! m = Some e).
    by rewrite list_lookup_fmap, Hm, <- Hentry.
Qed.

(** C10: a node made by pairing the last element of an odd row with
    itself hashes the left digest twice but stores a null right child,
    so its entry, in [asValue] and in every path through it, has a
    "left" member only; a node made from two elements stores both
    children and its entry has "left" and "right". *)
Theorem self_paired_node_entry (h : Heap) (row : list nat) :
  tree_inv sha384 h row ->
  exists nextRow h',
    buildRow sha384 (length row) 0 row [] h = Ok (nextRow, h') /\
    forall i node, nextRow !! i = Some node ->
      exists lc dl n,
        row !! (2 * i) = Some lc /\
        getHash h lc = Ok dl /\
        h' !! node = Some (NodeObj n) /\
        leftChild_ n = Some lc /\
        match row !! (2 * i + 1) with
        | None =>
            2 * i + 1 = length row /\
            rightChild_ n = None /\
            hash_ n = sha384 (data dl ++ data dl) /\
            entry_everywhere base64_encode h' node
              (JObject [("left", JString (base64_encode (data dl)))])
        | Some rc =>
            exists dr,
              getHash h rc = Ok dr /\
              rightChild_ n = Some rc /\
              hash_ n = sha384 (data dl ++ data dr) /\
              entry_everywhere base64_encode h' node
                (JObject [("left", JString (base64_encode (data dl)));
                          ("right", JString (base64_encode (data dr)))])
        end.
Proof.
  intros Hinv.
  destruct (buildRow_inv sha384 h row Hinv)
    as (h' & Hrun & Hlen & Hext & Hinv' & Hnodes).
  eexists _, h'. split; [exact Hrun|].
  intros i node Hi. apply lookup_seq in Hi as [-> Hi].
  destruct (Hnodes i Hi) as (o & Ho & l & dl & dr & Hl & Hdl & Hdr & ->).
  eexists l, dl, _. split; [done|]. split; [done|]. split; [exact Ho|].
  split; [done|].
  pose proof (getHash_extends _ _ _ _ Hext Hdl) as Hdl'.
  destruct (row !! (2 * i + 1)) as [r|] eqn:Hr; simpl in Hdr.
  - exists dr. split; [done|]. split; [done|]. split; [done|].
    pose proof (getHash_extends _ _ _ _ Hext Hdr) as Hdr'.
    apply (entry_everywhere_intro _ _ _ _ Ho). intros h'' Hext''.
    cbn [node_of leftChild_ rightChild_].
    rewrite (encoded_getHash h'' l dl), (encoded_getHash h'' r dr);
      eauto using getHash_extends.
  - assert (dr = dl) as -> by congruence.
    split.
    { apply lookup_ge_None in Hr. apply lookup_lt_Some in Hl. lia. }
    split; [done|]. split; [done|].
    apply (entry_everywhere_intro _ _ _ _ Ho). intros h'' Hext''.
    cbn [node_of leftChild_ rightChild_].
    rewrite (encoded_getHash h'' l dl); eauto using getHash_extends.
Qed.

End SelfPairing.

(** * Further properties of the tree *)

Section DigestRowFacts.

Variable sha384 : list byte -> SHA384_HASH.

Lemma pair_digests_lookup (ds : list SHA384_HASH) :
  forall i,
    pair_digests sha384 ds !! i
    = match ds !! (2 * i) with
      | Some a => Some (Hash sha384 a (default a (ds !! (2 * i + 1))))
      | None => None
      end.
Proof.
  induction ds as [ds IH] using (induction_ltof1 _ (@length _)).
  unfold ltof in IH. intros i.
  destruct ds as [|a [|b rest]].
  - done.
  - destruct i as [|i]; [done|]. simpl.
    replace (i + S (i + 0)) with (S (2 * i)) by lia. done.
  - destruct i as [|i]; [done|].
    cbn [pair_digests]. rewrite lookup_cons. rewrite IH by (simpl; lia).
    replace (2 * S i) with (S (S (2 * i))) by lia.
    replace (S (S (2 * i)) + 1) with (S (S (2 * i + 1))) by lia.
    done.
Qed.

Lemma pair_digests_length (ds : list SHA384_HASH) :
  length (pair_digests sha384 ds) = (length ds + 1) / 2.
Proof.
  induction ds as [ds IH] using (induction_ltof1 _ (@length _)).
  unfold ltof in IH. destruct ds as [|a [|b rest]]; [done | done |].
  cbn [pair_digests length]. rewrite IH by (simpl; lia). lia.
Qed.

End DigestRowFacts.

Lemma levels_log2_up (fuel : nat) :
  forall n, n <= S fuel -> levels fuel n = Nat.log2_up n.
Proof.
  induction fuel as [|fuel IH]; intros n Hn.
  - destruct n as [|[|n]]; [done | done | lia].
  - cbn [levels]. destruct (Nat.ltb_spec 1 n) as [Hlt|Hge].
    2:{ symmetry. apply Nat.log2_up_eqn0. lia. }
    rewrite IH by lia. symmetry.
    destruct (decide (n = 2)) as [->|Hne]; [done|].
    pose proof (Nat.log2_up_spec ((n + 1) / 2)) as Hspec.
    assert (1 < (n + 1) / 2) as Hm by lia. specialize (Hspec Hm).
    assert (0 < Nat.log2_up ((n + 1) / 2)) as Hpos.
    { apply Nat.log2_up_pos. lia. }
    apply Nat.log2_up_unique; [lia|]. cbn [Nat.pred].
    destruct (Nat.log2_up ((n + 1) / 2)) as [|b]; [lia|].
    cbn [Nat.pred] in Hspec. rewrite !Nat.pow_succ_r' in *. lia.
Qed.

Lemma climbs_ancestors (h : Heap) (p : nat) (c : list nat) :
  wf_heap h -> climbs h p c ->
  forall fuel, length h <= fuel + p -> ancestors fuel h p = c.
Proof.
  intros Hwf Hc. induction Hc as [p o Ho Hnone|p q o c Ho Hq Hc IH];
    intros fuel Hfuel; pose proof (lookup_lt_Some _ _ _ Ho) as Hp.
  - destruct fuel as [|fuel]; [lia|]. simpl. by rewrite Ho, Hnone.
  - destruct fuel as [|fuel]; [lia|]. simpl. rewrite Ho, Hq.
    destruct (Hwf _ _ Ho) as (Hpar & _). specialize (Hpar q Hq).
    rewrite IH by lia. done.
Qed.

Section Levels.

Variable sha384 : list byte -> SHA384_HASH.

(** One pass of the [for] loop takes the row of digests to the next row
    of digests and lifts every leaf one object higher. *)
Lemma buildRow_level (h : Heap) (row : list nat) (ds : list SHA384_HASH)
    (n k : nat) :
  tree_inv sha384 h row ->
  row_digests h row ds ->
  parentless h row ->
  leaves_at_depth h n k row ->
  exists h',
    buildRow sha384 (length row) 0 row [] h
    = Ok (seq (length h) ((length row + 1) / 2), h') /\
    extends h h' /\
    tree_inv sha384 h' (seq (length h) ((length row + 1) / 2)) /\
    row_digests h' (seq (length h) ((length row + 1) / 2))
      (pair_digests sha384 ds) /\
    parentless h' (seq (length h) ((length row + 1) / 2)) /\
    leaves_at_depth h' n (S k) (seq (length h) ((length row + 1) / 2)).
Proof.
  intros Hinv Hds Htop Hdepth.
  destruct (buildRow_inv sha384 h row Hinv)
    as (h' & Hrun & Hlen & Hext & Hinv' & Hnodes).
  destruct (buildRow_spec sha384 (length row) 0 row [] h
              (inv_wf _ _ _ Hinv) (inv_row _ _ _ Hinv) (inv_nodup _ _ _ Hinv))
    as (h2 & Hrun2 & _ & _ & _ & _ & Hpar & _ & Hother); [lia|].
  rewrite Nat.sub_0_r in *. cbn [app] in Hrun2.
  rewrite Hrun in Hrun2. injection Hrun2 as <-.
  exists h'. split; [done|]. split; [done|]. split; [done|].
  pose proof (Forall2_length _ _ _ Hds) as Hdslen.
  assert (forall i, i < (length row + 1) / 2 ->
            exists o, h' !! (length h + i) = Some o /\
                      parent_ (node_of o) = None) as Hnew.
  { intros i Hi.
    destruct (Hnodes i Hi) as (o & Ho & l & dl & dr & _ & _ & _ & ->).
    eauto. }
  split; [|split].
  - apply Forall2_same_length_lookup. split.
    { rewrite length_seq, pair_digests_length. by rewrite Hdslen. }
    intros i p d Hp Hd. apply lookup_seq in Hp as [-> Hi].
    destruct (Hnodes i Hi) as (o & Ho & l & dl & dr & Hl & Hdl & Hdr & ->).
    rewrite (getHash_Some _ _ _ Ho). cbn [node_of hash_]. f_equal.
    rewrite pair_digests_lookup in Hd.
    destruct (Forall2_lookup_l _ _ _ _ _ Hds Hl) as (a & Ha & Hla).
    rewrite Ha in Hd. injection Hd as <-.
    assert (dl = a) as -> by congruence. f_equal.
    change (i + (i + 0)) with (2 * i).
    destruct (row !! (2 * i + 1)) as [r|] eqn:Hr; simpl in Hdr.
    + destruct (Forall2_lookup_l _ _ _ _ _ Hds Hr) as (b & Hb & Hrb).
      rewrite Hb. simpl. congruence.
    + rewrite (lookup_ge_None_2 ds); [simpl; congruence|].
      apply lookup_ge_None in Hr. lia.
  - intros p Hp. apply elem_of_seq in Hp.
    destruct (Hnew (p - length h)) as (o & Ho & Hnone); [lia|].
    replace (length h + (p - length h)) with p in Ho by lia. eauto.
  - intros i Hi.
    destruct (Hdepth i Hi) as (c & top & Hc & Hclen & Hlast & Htopin).
    apply list_elem_of_lookup in Htopin as [kk Hkk].
    pose proof (lookup_lt_Some _ _ _ Hkk) as Hkklt.
    assert (climbs h' i (c ++ [length h + kk / 2])) as Hclimb.
    { clear Hclen Hi. induction Hc as [p o Ho Hnone|p q o c Ho Hq Hc IH].
      - simpl in Hlast. injection Hlast as ->.
        destruct (Hpar kk top Hkk) as (o' & Ho' & Hpo'); [lia|].
        rewrite Nat.sub_0_r in Hpo'.
        destruct (Hnew (kk / 2)) as (oy & Hoy & Hynone); [lia|].
        simpl. eapply climbs_step; [exact Ho' | exact Hpo' |].
        eapply climbs_top; eauto.
      - assert (p ∉ row) as Hnin.
        { intros Hin. destruct (Htop p Hin) as (o' & Ho' & Hnone').
          congruence. }
        pose proof (lookup_lt_Some _ _ _ Ho) as Hp.
        simpl. eapply climbs_step; [| exact Hq |].
        + by rewrite (Hother p Hp Hnin).
        + apply IH. destruct c as [|x c']; [inversion Hc|].
          by rewrite last_cons_cons in Hlast. }
    exists (c ++ [length h + kk / 2]), (length h + kk / 2).
    split; [done|]. split; [rewrite length_app; simpl; lia|].
    split; [by rewrite last_snoc|].
    apply elem_of_seq. lia.
Qed.

(** The [while] loop takes the row of digests to its full reduction and
    lifts every leaf by the number of rows it builds. *)
Lemma buildLevels_level (fuel : nat) :
  forall (row : list nat) (h : Heap) (ds : list SHA384_HASH) (n k : nat),
    tree_inv sha384 h row ->
    row_digests h row ds ->
    parentless h row ->
    leaves_at_depth h n k row ->
    row <> [] -> length row <= S fuel ->
    exists root h',
      buildLevels sha384 fuel row h = Ok ([root], h') /\
      extends h h' /\
      tree_inv sha384 h' [root] /\
      row_digests h' [root] (reduce_digests sha384 fuel ds) /\
      leaves_at_depth h' n (k + levels fuel (length row)) [root].
Proof.
  induction fuel as [|fuel IH];
    intros row h ds n k Hinv Hds Htop Hdepth Hne Hfuel.
  - destruct row as [|root [|]]; simpl in *; try done; try lia.
    exists root, h. rewrite Nat.add_0_r.
    pose proof (Forall2_length _ _ _ Hds) as Hlen.
    destruct ds as [|d [|]]; simpl in *; try done.
    eauto 10 using extends_refl.
  - pose proof (Forall2_length _ _ _ Hds) as Hlen.
    cbn [buildLevels reduce_digests levels]. rewrite <- Hlen.
    destruct (Nat.ltb_spec 1 (length row)) as [Hlt|Hge].
    + destruct (buildRow_level h row ds n k Hinv Hds Htop Hdepth)
        as (h1 & Hrun & Hext & Hinv1 & Hds1 & Htop1 & Hdepth1).
      destruct (IH _ h1 _ n (S k) Hinv1 Hds1 Htop1 Hdepth1)
        as (root & h' & Hrun' & Hext' & Hinv' & Hds' & Hdepth').
      { intros E. apply (f_equal length) in E.
        rewrite length_seq in E. cbn [length] in E. lia. }
      { rewrite length_seq. lia. }
      exists root, h'. unfold mbind, M_bind. rewrite Hrun, Hrun'.
      rewrite length_seq in Hdepth'.
      replace (k + S (levels fuel ((length row + 1) / 2)))
        with (S k + levels fuel ((length row + 1) / 2)) by lia.
      eauto 10 using extends_trans.
    + destruct row as [|root [|]]; simpl in *; try done; try lia.
      exists root, h. rewrite Nat.add_0_r.
      eauto 10 using extends_refl.
Qed.

End Levels.

Section TreeProperties.

Variable sha384 : list byte -> SHA384_HASH.
Variable base64_encode : list byte -> string.

Lemma leaf_objects_level (records : list RecordPtr) :
  row_digests (leaf_objects records) (seq 0 (length records))
    (map Record_getHash records) /\
  parentless (leaf_objects records) (seq 0 (length records)) /\
  leaves_at_depth (leaf_objects records) (length records) 0
    (seq 0 (length records)).
Proof.
  assert (forall i, i < length records ->
            exists r, records !! i = Some r /\
              leaf_objects records !! i
              = Some (LeafObj (mkNode None None None (Record_getHash r))
                        (Record_getName r))) as Hleaf.
  { intros i Hi. destruct (lookup_lt_is_Some_2 _ _ Hi) as [r Hr].
    exists r. split; [done|]. by apply leaf_objects_lookup. }
  split; [|split].
  - apply Forall2_same_length_lookup. split.
    { by rewrite length_seq, length_map. }
    intros i p d Hp Hd. apply lookup_seq in Hp as [-> Hi]. simpl.
    destruct (Hleaf i Hi) as (r & Hr & Ho).
    rewrite list_lookup_fmap, Hr in Hd. injection Hd as <-.
    by rewrite (getHash_Some _ _ _ Ho).
  - intros p Hp. apply elem_of_seq in Hp.
    destruct (Hleaf p) as (r & Hr & Ho); [lia|]. eauto.
  - intros i Hi. destruct (Hleaf i Hi) as (r & Hr & Ho).
    exists [i], i. split; [by eapply climbs_top|]. split; [done|].
    split; [done|]. apply elem_of_seq. lia.
Qed.

(** The constructor's result with the digest and depth facts. *)
Lemma build_level (records : list RecordPtr) :
  records <> [] ->
  exists (root : nat) (h : Heap) (t : MerkleTree),
    build sha384 records = Ok (t, h) /\
    leaves_ t = seq 0 (length records) /\
    getHash h root = Ok (getRootHash t) /\
    extends (leaf_objects records) h /\
    tree_inv sha384 h [root] /\
    row_digests h [root]
      (reduce_digests sha384 (length records) (map Record_getHash records)) /\
    leaves_at_depth h (length records)
      (Nat.log2_up (length records)) [root].
Proof.
  intros Hne.
  destruct (leaf_objects_level records) as (Hds & Htop & Hdepth).
  destruct (buildLevels_level sha384 (length records)
              (seq 0 (length records)) (leaf_objects records) _
              (length records) 0 (leaf_objects_inv sha384 records)
              Hds Htop Hdepth)
    as (root & h & Hrun & Hext & Hinv & Hds' & Hdepth').
  { destruct records; [done|]. simpl. done. }
  { rewrite length_seq. lia. }
  rewrite length_seq, levels_log2_up in Hdepth' by lia.
  pose proof (inv_row _ _ _ Hinv) as Hroot.
  apply Forall_cons in Hroot as [Hroot _].
  destruct (lookup_lt_is_Some_2 _ _ Hroot) as [oroot Horoot].
  exists root, h, (mkTree (seq 0 (length records)) (hash_ (node_of oroot))).
  split.
  { unfold build, MerkleTree_ctor, mbind, M_bind. rewrite makeLeaves_run.
    simpl. unfold buildTree, mbind, M_bind, pure_, get, at_.
    rewrite length_seq, Hrun. simpl.
    by rewrite (getHash_Some _ _ _ Horoot). }
  split; [done|]. split; [by rewrite (getHash_Some _ _ _ Horoot)|].
  done.
Qed.

(** The constructor succeeds on every non-empty record sequence, sorted
    or not: no pointer dangles, the leaves stand in record order and keep
    the records' names and digests, and a leaf's own entry is null. *)
Theorem constructor_succeeds (records : list RecordPtr) :
  records <> [] ->
  exists t h,
    build sha384 records = Ok (t, h) /\
    leaves_ t = seq 0 (length records) /\
    wf_heap h /\
    forall i r, records !! i = Some r ->
      getName h i = Ok (Record_getName r) /\
      getHash h i = Ok (Record_getHash r) /\
      asValue base64_encode h i = Ok JNull.
Proof.
  intros Hne.
  destruct (build_leaves sha384 records Hne)
    as (root & oroot & h & Hrun & Hroot & Hinv & Hleaf & _).
  eexists _, h. split; [exact Hrun|]. split; [done|].
  split; [apply Hinv|].
  intros i r Hi. destruct (Hleaf _ _ Hi) as (n & Hn & Hhash & Hl & Hr).
  rewrite (getName_Some _ _ _ _ Hn), (getHash_Some _ _ _ Hn).
  split; [done|]. split; [by rewrite <- Hhash|].
  rewrite (asValue_run base64_encode h i _ Hn);
    cbn [node_of]; rewrite ?Hl, ?Hr; try done.
  unfold node_entry. rewrite Hn. cbn [node_of]. by rewrite Hl, Hr.
Qed.

(** The root digest is the digest the row-by-row reduction of the leaf
    digests ends with: it is a function of the digests and their order
    alone. *)
Theorem root_is_digest_reduction (records : list RecordPtr) :
  records <> [] ->
  exists t h,
    build sha384 records = Ok (t, h) /\
    merkle_root sha384 (map Record_getHash records) = Some (getRootHash t).
Proof.
  intros Hne.
  destruct (build_level records Hne)
    as (root & h & t & Hrun & _ & Hroot & _ & _ & Hds & _).
  exists t, h. split; [done|]. unfold merkle_root. rewrite length_map.
  inversion Hds as [|p d ? ? Hd Hnil Hp Hred]; subst.
  inversion Hnil; subst. simpl. congruence.
Qed.

(** Two record sequences with the same digests in the same order give the
    same root digest, whatever the names. *)
Theorem root_ignores_names (records records' : list RecordPtr) :
  records <> [] ->
  map Record_getHash records = map Record_getHash records' ->
  exists t h t' h',
    build sha384 records = Ok (t, h) /\
    build sha384 records' = Ok (t', h') /\
    getRootHash t = getRootHash t'.
Proof.
  intros Hne Hsame.
  assert (records' <> []) as Hne'.
  { intros ->. by destruct records. }
  destruct (build_level records Hne)
    as (root & h & t & Hrun & _ & Hroot & _ & _ & Hds & _).
  destruct (build_level records' Hne')
    as (root' & h' & t' & Hrun' & _ & Hroot' & _ & _ & Hds' & _).
  exists t, h, t', h'. split; [done|]. split; [done|].
  assert (length records = length records') as Hlen.
  { apply (f_equal length) in Hsame. by rewrite !length_map in Hsame. }
  rewrite <- Hsame, <- Hlen in Hds'.
  inversion Hds as [|p d ? ? Hd Hnil Hp Hred]; subst.
  inversion Hnil; subst.
  rewrite <- Hred in Hds'.
  inversion Hds' as [|p' d' ? ? Hd' Hnil' Hp' Hred']; subst.
  congruence.
Qed.

(** Every path of a tree over [n] leaves has [log2_up n + 2] elements: the
    leaf entry, the leaf's own entry and one entry per row built above the
    leaves.  The walk ends at the object that carries the root digest. *)
Theorem path_length (records : list RecordPtr) (i : nat) :
  i < length records ->
  exists t h entries root,
    build sha384 records = Ok (t, h) /\
    generatePath base64_encode h i = Ok (JArray entries) /\
    length entries = Nat.log2_up (length records) + 2 /\
    last (ancestors (length h) h i) = Some root /\
    getHash h root = Ok (getRootHash t).
Proof.
  intros Hi.
  assert (records <> []) as Hne by (intros ->; simpl in Hi; lia).
  destruct (build_level records Hne)
    as (root & h & t & Hrun & _ & Hroot & Hext & Hinv & _ & Hdepth).
  destruct (Hdepth i Hi) as (c & top & Hc & Hclen & Hlast & Htop).
  apply list_elem_of_singleton in Htop as ->.
  pose proof (inv_wf _ _ _ Hinv) as Hwf.
  destruct (lookup_lt_is_Some_2 records i Hi) as [r Hr].
  destruct (Hext _ _ (leaf_objects_lookup records i r Hr)) as (o & Ho & Eo).
  destruct o as [n|n s]; [done|].
  pose proof (lookup_lt_Some _ _ _ Ho) as Hih.
  pose proof (climbs_ancestors h i c Hwf Hc (length h)) as Hanc.
  eexists t, h, _, root. split; [done|].
  split; [exact (generatePath_run base64_encode h i n s Hwf Ho)|].
  rewrite Hanc by lia. cbn [length]. rewrite length_map, Hclen.
  split; [lia|]. done.
Qed.

(** A path is linked from entry to entry: it starts with the leaf entry
    and the leaf's own null entry, and the entry of every further object
    names, as "left" or as "right", the encoded digest of the object the
    walk came from. *)
Theorem path_entries_linked (records : list RecordPtr) (i : nat) (r : RecordPtr) :
  records !! i = Some r ->
  exists t h entries,
    build sha384 records = Ok (t, h) /\
    generatePath base64_encode h i = Ok (JArray entries) /\
    entries !! 0 = Some (leaf_entry (Record_getName r)
                           (base64_encode (data (Record_getHash r)))) /\
    entries !! 1 = Some JNull /\
    forall m a b,
      ancestors (length h) h i !! m = Some a ->
      ancestors (length h) h i !! S m = Some b ->
      exists da e,
        getHash h a = Ok da /\
        entries !! S (S m) = Some e /\
        (member e "left" = Some (JString (base64_encode (data da))) \/
         member e "right" = Some (JString (base64_encode (data da)))).
Proof.
  intros Hr.
  assert (records <> []) as Hne by (intros ->; done).
  destruct (build_level records Hne)
    as (root & h & t & Hrun & _ & Hroot & Hext & Hinv & _ & _).
  pose proof (inv_wf _ _ _ Hinv) as Hwf.
  destruct (Hext _ _ (leaf_objects_lookup records i r Hr)) as (o & Ho & Eo).
  destruct o as [n|n s]; [done|].
  simpl in Eo. injection Eo as El Erc Eh Es. subst s.
  pose proof (lookup_lt_Some _ _ _ Ho) as Hih.
  destruct (ancestors_chain sha384 h root (length h) Hinv i Hih)
    as (_ & Hsteps); [lia|].
  eexists t, h, _. split; [done|].
  split; [exact (generatePath_run base64_encode h i n _ Hwf Ho)|].
  split; [by rewrite Eh|].
  split.
  { change ((map (node_entry base64_encode h) (ancestors (length h) h i))
              !! 0 = Some JNull).
    destruct (length h) as [|k] eqn:Hk; [lia|]. cbn [ancestors map].
    unfold node_entry. rewrite Ho. cbn [node_of]. by rewrite El, Erc. }
  intros m a b Ha Hb.
  destruct (Hsteps m a b Ha Hb)
    as (oa & ob & l & dl & dr & Hoa & _ & Hob & Hl & Hc & Hdl & _ & _).
  exists (hash_ (node_of oa)), (node_entry base64_encode h b).
  split; [by rewrite (getHash_Some _ _ _ Hoa)|].
  split.
  { change ((map (node_entry base64_encode h) (ancestors (length h) h i))
              !! S m = Some (node_entry base64_encode h b)).
    by rewrite list_lookup_fmap, Hb. }
  destruct (Hwf _ _ Hob) as (_ & Hlc & Hrc).
  unfold node_entry. rewrite Hob, Hl. unfold encoded at 1.
  destruct Hc as [->|Hrt].
  - rewrite Hoa. left.
    by destruct (encoded base64_encode h (rightChild_ (node_of ob))).
  - rewrite Hrt. unfold encoded. rewrite Hoa. right.
    by destruct (h !! l).
Qed.

End TreeProperties.

(** * Properties of the helpers in Utils *)

Module UtilsProps.
Import Utils.

Local Open Scope Z_scope.

(** ** isPowerOfTwo *)

Lemma land_double_odd (a b : Z) :
  Z.land (2 * a) (2 * b + 1) = 2 * Z.land a b.
Proof.
  apply Z.bits_inj'. intros n Hn. rewrite Z.land_spec.
  destruct (Z.eq_dec n 0) as [->|Hne].
  - by rewrite !Z.testbit_even_0.
  - replace n with (Z.succ (n - 1)) by lia.
    rewrite !Z.testbit_even_succ, Z.testbit_odd_succ, Z.land_spec by lia.
    done.
Qed.

Lemma land_odd_double (a : Z) : Z.land (2 * a + 1) (2 * a) = 2 * a.
Proof.
  apply Z.bits_inj'. intros n Hn. rewrite Z.land_spec.
  destruct (Z.eq_dec n 0) as [->|Hne].
  - by rewrite Z.testbit_even_0, andb_false_r.
  - replace n with (Z.succ (n - 1)) by lia.
    rewrite Z.testbit_even_succ, Z.testbit_odd_succ by lia.
    by rewrite andb_diag.
Qed.

Lemma land_pred_zero (p : positive) :
  Z.land (Z.pos p) (Z.pos p - 1) = 0 <->
  exists k, 0 <= k /\ Z.pos p = 2 ^ k.
Proof.
  induction p as [q IH|q IH|].
  - replace (Z.pos q~1 - 1) with (2 * Z.pos q) by lia.
    replace (Z.pos q~1) with (2 * Z.pos q + 1) by lia.
    rewrite land_odd_double. split; [lia|].
    intros (k & Hk & E). exfalso.
    destruct (Z.eq_dec k 0) as [->|Hne]; [simpl in E; lia|].
    assert (Z.even (2 ^ k) = true) as Hev.
    { rewrite Z.even_pow by lia. done. }
    rewrite <- E in Hev. done.
  - replace (Z.pos q~0 - 1) with (2 * (Z.pos q - 1) + 1) by lia.
    replace (Z.pos q~0) with (2 * Z.pos q) by lia.
    rewrite land_double_odd. split.
    + intros H. destruct IH as [IH _].
      destruct IH as (k & Hk & E); [lia|].
      exists (k + 1). split; [lia|]. rewrite Z.pow_add_r by lia. lia.
    + intros (k & Hk & E).
      destruct (Z.eq_dec k 0) as [->|Hne]; [simpl in E; lia|].
      destruct IH as [_ IH]. rewrite IH; [lia|].
      exists (k - 1). split; [lia|].
      replace k with (k - 1 + 1) in E by lia.
      rewrite Z.pow_add_r in E by lia. lia.
  - split; [|done]. intros _. exists 0. done.
Qed.

(** [isPowerOfTwo] holds exactly of the powers of two a [size_t] can
    take. *)
Theorem isPowerOfTwo_spec (x : Z) :
  0 <= x < 2 ^ 64 ->
  isPowerOfTwo x = true <-> exists k, 0 <= k < 64 /\ x = 2 ^ k.
Proof.
  intros Hx. unfold isPowerOfTwo.
  destruct (Z.eqb_spec x 0) as [->|Hne]; simpl.
  - split; [done|]. intros (k & Hk & E).
    pose proof (Z.pow_pos_nonneg 2 k). lia.
  - assert (ulong (x - 1) = x - 1) as ->.
    { unfold ulong, ULONG_MOD. apply Z.mod_small. lia. }
    destruct x as [|p|p]; [done | | lia].
    rewrite Z.eqb_eq, land_pred_zero. split.
    + intros (k & Hk & E). exists k. split; [|done]. split; [lia|].
      apply (Z.pow_lt_mono_r_iff 2); lia.
    + intros (k & Hk & E). exists k. split; [lia|done].
Qed.

(** ** decode64Estimation *)

(** Below [2^62] nothing wraps, and the estimate leaves room for three
    bytes per four characters of input, rounded up. *)
Theorem decode64Estimation_bound (inSize : Z) :
  0 <= inSize < 2 ^ 62 ->
  decode64Estimation inSize = inSize * 4 / 3 + inSize / 96 + 6 /\
  3 * ((inSize + 3) / 4) <= decode64Estimation inSize.
Proof.
  intros Hn. unfold decode64Estimation, ulong, ULONG_MOD.
  assert (2 ^ 62 = 4611686018427387904) as E62 by done.
  assert (2 ^ 64 = 18446744073709551616) as E64 by done.
  rewrite E62 in Hn. rewrite E64.
  rewrite (Z.mod_small (inSize * 4)) by lia.
  rewrite (Z.mod_small (inSize * 4 / 3)) by lia.
  rewrite (Z.mod_small (inSize * 4 / 3 + inSize / 96)) by lia.
  rewrite (Z.mod_small (inSize * 4 / 3 + inSize / 96 + 6)) by lia.
  lia.
Qed.

Local Close Scope Z_scope.

(** ** strBeginsWith and strEndsWith *)

Lemma compare_lists_eq (s t : list ascii) :
  is_zero (String.compare (string_of_list_ascii s) (string_of_list_ascii t))
  = true <-> s = t.
Proof.
  split.
  - intros H.
    destruct (String.compare _ _) eqn:E; try done.
    apply String.compare_eq_iff in E.
    apply (f_equal list_ascii_of_string) in E.
    by rewrite !list_ascii_of_string_of_list_ascii in E.
  - intros ->. by rewrite string_compare_refl.
Qed.

(** [strBeginsWith] never throws and holds exactly when [str] is [begin]
    followed by something. *)
Theorem strBeginsWith_spec (str begin : list ascii) :
  exists b,
    strBeginsWith str begin = Some b /\
    (b = true <-> exists rest, str = begin ++ rest).
Proof.
  unfold strBeginsWith, string_compare. simpl. rewrite drop_0.
  eexists. split; [done|]. rewrite compare_lists_eq. split.
  - intros E. exists (drop (length begin) str).
    rewrite <- E at 1. by rewrite take_drop.
  - intros (rest & ->). by rewrite take_app_length.
Qed.

(** [strEndsWith] never throws and holds exactly when [str] is something
    followed by [ending]. *)
Theorem strEndsWith_spec (str ending : list ascii) :
  exists b,
    strEndsWith str ending = Some b /\
    (b = true <-> exists rest, str = rest ++ ending).
Proof.
  unfold strEndsWith, string_compare.
  destruct (Nat.leb_spec (length ending) (length str)) as [Hle|Hgt].
  - destruct (Nat.ltb_spec (length str) (length str - length ending));
      [lia|].
    simpl. eexists. split; [done|]. rewrite compare_lists_eq.
    rewrite take_ge by (rewrite length_drop; lia). split.
    + intros E. exists (take (length str - length ending) str).
      rewrite <- E at 2. by rewrite take_drop.
    + intros (rest & ->). rewrite length_app.
      replace (length rest + length ending - length ending)
        with (length rest) by lia.
      by rewrite drop_app_length.
  - exists false. split; [done|]. split; [done|].
    intros (rest & ->). rewrite length_app in Hgt. lia.
Qed.

(** ** trimString *)

Lemma find_if_le {A} (p : A -> bool) (l : list A) :
  find_if p l <= length l.
Proof. induction l as [|x l IH]; simpl; [lia|]. destruct (p x); lia. Qed.

Lemma find_if_before {A} (p : A -> bool) (l : list A) :
  Forall (fun x => p x = false) (take (find_if p l) l).
Proof.
  induction l as [|x l IH]; simpl; [constructor|].
  destruct (p x) eqn:E; simpl; [constructor|]. by constructor.
Qed.

Lemma find_if_at {A} (p : A -> bool) (l : list A) (x : A) :
  l !! find_if p l = Some x -> p x = true.
Proof.
  induction l as [|y l IH]; simpl; [done|].
  destruct (p y) eqn:E; simpl; [congruence|done].
Qed.

Lemma find_if_head {A} (p : A -> bool) (l : list A) :
  (forall x, head l = Some x -> p x = true) -> find_if p l = 0.
Proof.
  destruct l as [|y l]; simpl; [done|]. intros H. by rewrite (H y).
Qed.

Lemma rev_reverse {A} (l : list A) : rev l = reverse l.
Proof. unfold reverse. apply rev_alt. Qed.

Section TrimProps.

Variable isspace : ascii -> bool.

Let not_space (c : ascii) : bool := negb (isspace c).

Lemma trimString_cut (str : list ascii) :
  exists before after,
    str = before ++ trimString isspace str ++ after /\
    Forall (fun c => isspace c = true) before /\
    Forall (fun c => isspace c = true) after /\
    (forall c, head (trimString isspace str) = Some c -> isspace c = false) /\
    (forall c, last (trimString isspace str) = Some c -> isspace c = false).
Proof.
  unfold trimString, erase. fold not_space.
  rewrite take_0, app_nil_l.
  set (s := drop (find_if not_space str) str).
  rewrite drop_all, app_nil_r.
  set (r := find_if not_space (rev s)).
  assert (r <= length s) as Hr.
  { unfold r. rewrite <- length_rev. apply find_if_le. }
  exists (take (find_if not_space str) str), (drop (length s - r) s).
  split; [|split; [|split; [|split]]].
  - rewrite take_drop. unfold s. by rewrite take_drop.
  - eapply Forall_impl; [apply find_if_before|]. simpl.
    intros c Hc. unfold not_space in Hc. by destruct (isspace c).
  - assert (drop (length s - r) s = rev (take r (rev s))) as ->.
    { rewrite !rev_reverse, take_reverse. by rewrite reverse_involutive. }
    rewrite rev_reverse. apply Forall_reverse.
    eapply Forall_impl; [apply find_if_before|]. simpl.
    intros c Hc. unfold not_space in Hc. by destruct (isspace c).
  - intros c Hc.
    assert (s !! 0 = Some c) as Hs.
    { destruct (length s - r) eqn:E; [by rewrite take_0 in Hc|].
      destruct s; [done|]. simpl in Hc. done. }
    unfold s in Hs. rewrite lookup_drop, Nat.add_0_r in Hs.
    apply find_if_at in Hs. unfold not_space in Hs. by destruct (isspace c).
  - intros c Hc. rewrite last_lookup, length_take in Hc.
    rewrite Nat.min_l in Hc by lia.
    destruct (decide (length s - r = 0)) as [E|E].
    { rewrite E, take_0 in Hc. done. }
    rewrite lookup_take_lt in Hc by lia.
    assert (rev s !! r = Some c) as Hrev.
    { rewrite rev_reverse. rewrite reverse_lookup by lia.
      rewrite <- Hc. f_equal. lia. }
    apply find_if_at in Hrev. unfold not_space in Hrev.
    by destruct (isspace c).
Qed.

(** [trimString] cuts whitespace, and nothing else, off both ends: what
    is left neither begins nor ends with a whitespace character. *)
Theorem trimString_spec (str : list ascii) :
  exists before after,
    str = before ++ trimString isspace str ++ after /\
    Forall (fun c => isspace c = true) before /\
    Forall (fun c => isspace c = true) after /\
    (forall c, head (trimString isspace str) = Some c -> isspace c = false) /\
    (forall c, last (trimString isspace str) = Some c -> isspace c = false).
Proof. exact (trimString_cut str). Qed.

(** A string without whitespace at either end is left as it is; so
    trimming twice is trimming once. *)
Theorem trimString_idempotent (str : list ascii) :
  trimString isspace (trimString isspace str) = trimString isspace str.
Proof.
  destruct (trimString_cut str) as (_ & _ & _ & _ & _ & Hhead & Hlast).
  set (t := trimString isspace str) in *.
  unfold trimString, erase. fold not_space.
  rewrite take_0, app_nil_l.
  rewrite (find_if_head not_space t).
  2:{ intros c Hc. unfold not_space. by rewrite (Hhead c Hc). }
  rewrite drop_0, drop_all, app_nil_r.
  rewrite (find_if_head not_space (rev t)).
  2:{ intros c Hc. unfold not_space. rewrite (Hlast c); [done|].
      rewrite <- Hc. rewrite rev_reverse. by rewrite head_reverse. }
  rewrite Nat.sub_0_r. by rewrite firstn_all.
Qed.

End TrimProps.

(** ** getAsHex and hex2bin *)

Lemma hex_pair (b : byte) :
  u8 (char2int (hex_digit (Byte.to_nat b / 16)) * 16
      + char2int (hex_digit (Byte.to_nat b mod 16))) = b /\
  Byte.eqb (hex_digit (Byte.to_nat b / 16)) x00 = false /\
  Byte.eqb (hex_digit (Byte.to_nat b mod 16)) x00 = false.
Proof. destruct b; vm_compute; done. Qed.

(** [hex2bin] reads back what the digits of [getAsHex] spell. *)
Lemma hex2bin_hex_chars (data : list byte) :
  hex2bin (hex_chars data) = data.
Proof.
  induction data as [|b data IH]; [done|].
  cbn [hex_chars flat_map app hex2bin].
  destruct (hex_pair b) as (Hb & Hhi & Hlo).
  rewrite Hhi, Hlo. cbn [negb andb]. rewrite Hb. f_equal. exact IH.
Qed.

Lemma hex_chars_nonzero (data : list byte) :
  Forall (fun c => Byte.eqb c x00 = false) (hex_chars data).
Proof.
  induction data as [|b data IH]; [constructor|].
  destruct (hex_pair b) as (_ & Hhi & Hlo).
  cbn [hex_chars flat_map app]. by repeat constructor.
Qed.

Lemma c_string_terminated (s : list byte) (rest : list (option byte)) :
  Forall (fun c => Byte.eqb c x00 = false) s ->
  c_string (map Some s ++ Some x00 :: rest) = Some s.
Proof.
  induction 1 as [|c s Hc Hs IH]; [done|].
  cbn [map app c_string]. rewrite Hc, IH. done.
Qed.

Lemma store_at (A B : list (option byte)) (x : option byte) (c : byte) :
  store (A ++ x :: B) (Z.of_nat (length A)) c = Returns (A ++ Some c :: B).
Proof.
  unfold store. rewrite length_app. cbn [length].
  destruct (Z.leb_spec 0 (Z.of_nat (length A))); [|lia].
  destruct (Z.ltb_spec (Z.of_nat (length A))
              (Z.of_nat (length A + S (length B)))); [|lia].
  cbn [andb]. rewrite Nat2Z.id.
  rewrite insert_app_r_alt, Nat.sub_diag by lia. done.
Qed.

Lemma getAsHex_loop_run (fuel : nat) :
  forall (data : list byte) (len i : nat) (A : list (option byte))
         (t : option byte),
    length A = 2 * i + 2 ->
    i + fuel = len ->
    len <= length data ->
    (Z.of_nat len * 2 + 3 <= INT_MAX)%Z ->
    getAsHex_loop fuel data (Z.of_nat len) (Z.of_nat i)
      (A ++ t :: replicate (2 * fuel) None)
    = Returns (A ++ map Some (hex_chars (take fuel (drop i data)))
                 ++ [if fuel =? 0 then t else Some x00]).
Proof.
  induction fuel as [|fuel IH]; intros data len i A t HA Hlen Hdata Hmax.
  - cbn [getAsHex_loop]. destruct (Z.ltb_spec (Z.of_nat i) (Z.of_nat len));
      [lia|]. done.
  - cbn [getAsHex_loop]. destruct (Z.ltb_spec (Z.of_nat i) (Z.of_nat len));
      [|lia].
    rewrite Nat2Z.id.
    destruct (lookup_lt_is_Some_2 data i) as [b Hb]; [lia|]. rewrite Hb.
    pose proof Hmax as Hmax'. unfold INT_MAX in Hmax'.
    assert (int_ (Z.of_nat i * 2) = Returns (Z.of_nat i * 2)%Z) as ->.
    { unfold int_, INT_MIN, INT_MAX.
      destruct (Z.leb_spec (- 2 ^ 31) (Z.of_nat i * 2)); [|lia].
      destruct (Z.leb_spec (Z.of_nat i * 2) (2 ^ 31 - 1)); [done|lia]. }
    cbn [mbind Result_bind].
    assert (int_ (Z.of_nat i * 2 + 2) = Returns (Z.of_nat (length A))) as ->.
    { unfold int_, INT_MIN, INT_MAX.
      destruct (Z.leb_spec (- 2 ^ 31) (Z.of_nat i * 2 + 2)); [|lia].
      destruct (Z.leb_spec (Z.of_nat i * 2 + 2) (2 ^ 31 - 1)); [|lia].
      cbn [andb]. f_equal. lia. }
    cbn [mbind Result_bind]. unfold sprintf_02x.
    replace (2 * S fuel) with (S (S (2 * fuel))) by lia.
    cbn [replicate]. rewrite store_at. cbn [mbind Result_bind].
    replace (A ++ Some (hex_digit (Byte.to_nat b / 16))
               :: None :: None :: replicate (2 * fuel) None)
      with ((A ++ [Some (hex_digit (Byte.to_nat b / 16))])
              ++ None :: None :: replicate (2 * fuel) None)
      by (by rewrite <- app_assoc).
    replace (Z.of_nat (length A) + 1)%Z
      with (Z.of_nat (length (A ++ [Some (hex_digit (Byte.to_nat b / 16))])))
      by (rewrite length_app; simpl; lia).
    rewrite store_at. cbn [mbind Result_bind].
    set (A2 := (A ++ [Some (hex_digit (Byte.to_nat b / 16))])
                 ++ [Some (hex_digit (Byte.to_nat b mod 16))]).
    replace ((A ++ [Some (hex_digit (Byte.to_nat b / 16))])
               ++ Some (hex_digit (Byte.to_nat b mod 16))
               :: None :: replicate (2 * fuel) None)
      with (A2 ++ None :: replicate (2 * fuel) None)
      by (unfold A2; by rewrite <- (app_assoc _ [_])).
    replace (Z.of_nat (length A) + 2)%Z with (Z.of_nat (length A2))
      by (unfold A2; rewrite !length_app; simpl; lia).
    rewrite store_at.
    assert (int_ (Z.of_nat i + 1) = Returns (Z.of_nat (S i))) as ->.
    { unfold int_, INT_MIN, INT_MAX.
      destruct (Z.leb_spec (- 2 ^ 31) (Z.of_nat i + 1)); [|lia].
      destruct (Z.leb_spec (Z.of_nat i + 1) (2 ^ 31 - 1)); [|lia].
      cbn [andb]. f_equal. lia. }
    cbn [mbind Result_bind].
    rewrite (IH data len (S i) A2 (Some x00)); [| | lia | lia | done].
    2:{ unfold A2. rewrite !length_app. simpl. lia. }
    f_equal. unfold A2.
    rewrite (drop_S _ _ _ Hb). cbn [take hex_chars flat_map app map].
    rewrite <- !app_assoc. cbn [app]. do 4 f_equal.
    by destruct fuel.
Qed.

(** For a positive [len] within [data], [getAsHex] returns a buffer of
    [2 len + 3] bytes that holds the zero-terminated text "0x" followed by
    two lower-case digits per byte, and [hex2bin] turns those digits back
    into the bytes. *)
Theorem getAsHex_hex2bin (data : list byte) (len : Z) :
  (0 < len <= Z.of_nat (length data))%Z ->
  (len * 2 + 3 <= INT_MAX)%Z ->
  exists buf digits,
    getAsHex data len = Returns buf /\
    Z.of_nat (length buf) = (len * 2 + 3)%Z /\
    c_string buf = Some ("0"%byte :: "x"%byte :: digits) /\
    digits = hex_chars (take (Z.to_nat len) data) /\
    hex2bin digits = take (Z.to_nat len) data.
Proof.
  intros Hlen Hmax.
  assert (exists m, len = Z.of_nat m) as [m ->]
    by (exists (Z.to_nat len); lia).
  rewrite Nat2Z.id.
  assert (0 < m <= length data) as Hm by lia.
  exists (map Some ("0"%byte :: "x"%byte :: hex_chars (take m data))
          ++ [Some x00]),
    (hex_chars (take m data)).
  split.
  - pose proof (getAsHex_loop_run m data m 0
                  [Some "0"%byte; Some "x"%byte] None eq_refl eq_refl
                  (proj2 Hm) Hmax) as Hloop.
    cbn [app] in Hloop. change (Z.of_nat 0) with 0%Z in Hloop.
    unfold getAsHex. unfold INT_MAX in Hmax.
    assert (int_ (Z.of_nat m * 2) = Returns (Z.of_nat m * 2)%Z) as ->.
    { unfold int_, INT_MIN, INT_MAX.
      destruct (Z.leb_spec (- 2 ^ 31) (Z.of_nat m * 2)); [|lia].
      destruct (Z.leb_spec (Z.of_nat m * 2) (2 ^ 31 - 1)); [done|lia]. }
    cbn [mbind Result_bind].
    assert (int_ (Z.of_nat m * 2 + 3) = Returns (Z.of_nat (2 * m + 3))) as ->.
    { unfold int_, INT_MIN, INT_MAX.
      destruct (Z.leb_spec (- 2 ^ 31) (Z.of_nat m * 2 + 3)); [|lia].
      destruct (Z.leb_spec (Z.of_nat m * 2 + 3) (2 ^ 31 - 1)); [|lia].
      cbn [andb]. f_equal. lia. }
    cbn [mbind Result_bind].
    destruct (Z.ltb_spec (Z.of_nat (2 * m + 3)) 0); [lia|].
    rewrite !Nat2Z.id.
    replace (2 * m + 3) with (S (S (S (2 * m)))) by lia.
    cbn [replicate].
    rewrite (store_at [] (None :: None :: replicate (2 * m) None) None
               "0"%byte
             : store (None :: None :: None :: replicate (2 * m) None) 0
                 "0"%byte = _).
    cbn [mbind Result_bind app].
    rewrite (store_at [Some "0"%byte] (None :: replicate (2 * m) None) None
               "x"%byte
             : store (Some "0"%byte :: None :: None
                        :: replicate (2 * m) None) 1 "x"%byte = _).
    cbn [mbind Result_bind app].
    rewrite Hloop, drop_0. destruct m; [lia|]. done.
  - split.
    { rewrite length_app, length_map. cbn [length].
      assert (length (hex_chars (take m data)) = 2 * m) as ->; [|lia].
      assert (forall l : list byte, length (hex_chars l) = 2 * length l) as H.
      { induction l as [|b l IH]; [done|].
        cbn [hex_chars flat_map app length] in *. unfold hex_chars in IH.
        rewrite IH. lia. }
      rewrite H, length_take. lia. }
    split.
    { cbn [app]. apply c_string_terminated.
      constructor; [done|]. constructor; [done|]. apply hex_chars_nonzero. }
    split; [done|]. apply hex2bin_hex_chars.
Qed.

(** Without a positive [len] there is no text: a negative [len] makes
    [getAsHex] fail, and for [len = 0] the three-byte buffer holds "0x" and
    a third byte that is never written, so it is not terminated. *)
Theorem getAsHex_no_text (data : list byte) (len : Z) :
  (len <= 0)%Z ->
  (len = 0%Z /\
   getAsHex data len = Returns [Some "0"%byte; Some "x"%byte; None] /\
   c_string [Some "0"%byte; Some "x"%byte; None] = None) \/
  (len < 0 /\ exists f, getAsHex data len = Fails f)%Z.
Proof.
  intros Hlen. destruct (Z.eq_dec len 0%Z) as [->|Hne]; [left; done|].
  right. split; [lia|]. unfold getAsHex, int_, INT_MIN, INT_MAX.
  destruct (Z.leb_spec (- 2 ^ 31) (len * 2));
    destruct (Z.leb_spec (len * 2) (2 ^ 31 - 1)); cbn [andb mbind Result_bind];
    eauto.
  destruct (Z.leb_spec (- 2 ^ 31) (len * 2 + 3));
    destruct (Z.leb_spec (len * 2 + 3) (2 ^ 31 - 1));
    cbn [andb mbind Result_bind]; eauto.
  destruct (Z.ltb_spec (len * 2 + 3) 0%Z); [eauto|].
  assert (len = -1)%Z as -> by lia. vm_compute. eauto.
Qed.

(** [hex2bin] writes one byte for every two characters before the
    terminating zero; a last character without a partner is dropped. *)
Theorem hex2bin_length (src : list byte) :
  Forall (fun c => Byte.eqb c x00 = false) src ->
  length (hex2bin src) = length src / 2.
Proof.
  induction src as [src IH] using (induction_ltof1 _ (@length _)).
  unfold ltof in IH. intros Hnz.
  destruct src as [|a [|b src]]; [done | done |].
  inversion Hnz as [|? ? Ha Hnz']; subst.
  inversion Hnz' as [|? ? Hb Hnz'']; subst.
  cbn [hex2bin length]. rewrite Ha, Hb. cbn [negb andb length].
  rewrite IH by (simpl; lia || done). lia.
Qed.

(** ** stringReplace *)

Lemma is_prefix_spec (t s : list ascii) :
  is_prefix t s = true <-> exists rest, s = t ++ rest.
Proof.
  revert s. induction t as [|a t IH]; intros s; simpl.
  - split; [eauto|done].
  - destruct s as [|b s].
    + split; [done|]. by intros (rest & ?).
    + rewrite andb_true_iff, Ascii.eqb_eq, IH. split.
      * intros (-> & rest & ->). eauto.
      * intros (rest & [= -> ->]). eauto.
Qed.

Lemma search_Some (t s : list ascii) (i : nat) :
  search t s = Some i ->
  exists rest, drop i s = t ++ rest /\ i <= length s.
Proof.
  revert i. induction s as [|b s IH]; intros i; cbn [search].
  - destruct (is_prefix t []) eqn:E; [|done]. intros [= <-].
    apply is_prefix_spec in E as (rest & E). exists rest. split; [done|lia].
  - destruct (is_prefix t (b :: s)) eqn:E.
    + intros [= <-]. apply is_prefix_spec in E as (rest & E).
      exists rest. split; [done|lia].
    + destruct (search t s) as [j|] eqn:Hj; [|done]. simpl.
      intros [= <-]. destruct (IH j eq_refl) as (rest & Hd & Hle).
      exists rest. split; [done|simpl; lia].
Qed.

Lemma string_find_Some (s t : list ascii) (pos p : nat) :
  string_find s t pos = Some p ->
  exists rest, drop p s = t ++ rest /\ pos <= p /\ p <= length s.
Proof.
  unfold string_find. destruct (Nat.ltb_spec (length s) pos); [done|].
  destruct (search t (drop pos s)) as [i|] eqn:Hi; [|done]. simpl.
  intros [= <-]. destruct (search_Some _ _ _ Hi) as (rest & Hd & Hle).
  rewrite drop_drop in Hd. rewrite length_drop in Hle.
  exists rest. split; [done|lia].
Qed.

(** With an empty [find] the loop never ends: every position matches,
    [replace] is inserted there, and the search goes on behind it. *)
Theorem stringReplace_empty_find (fuel : nat) :
  forall (str replace : list ascii) (pos : nat),
    pos <= length str ->
    stringReplace_loop fuel str [] replace pos = Fails OutOfFuel.
Proof.
  induction fuel as [|fuel IH]; intros str replace pos Hpos;
    cbn [stringReplace_loop]; unfold string_find;
    (destruct (Nat.ltb_spec (length str) pos); [lia|]);
    (destruct (drop pos str); cbn [search is_prefix fmap option_fmap
                                   option_map]); try done.
  - rewrite IH; [done|]. unfold string_replace.
    rewrite !length_app, length_take, length_drop. cbn [length]. lia.
  - rewrite IH; [done|]. unfold string_replace.
    rewrite !length_app, length_take, length_drop. cbn [length]. lia.
Qed.

Lemma stringReplace_loop_returns (find replace : list ascii) (fuel : nat) :
  find <> [] ->
  forall (str : list ascii) (pos : nat),
    length str - pos <= fuel ->
    exists result,
      stringReplace_loop fuel str find replace pos = Returns result.
Proof.
  intros Hne. induction fuel as [|fuel IH]; intros str pos Hfuel;
    cbn [stringReplace_loop];
    destruct (string_find str find pos) as [p|] eqn:Hp; eauto;
    destruct (string_find_Some _ _ _ _ Hp) as (rest & Hd & Hle & Hlen);
    apply (f_equal length) in Hd;
    rewrite length_drop, length_app in Hd;
    (assert (0 < length find) by (destruct find; [done|simpl; lia])).
  - lia.
  - apply IH. unfold string_replace.
    rewrite !length_app, length_take, length_drop. lia.
Qed.

(** With a non-empty [find] the call returns: every round moves on by at
    least one character of [str], so the rounds its length allows are
    enough. *)
Theorem stringReplace_returns (str find replace : list ascii) :
  find <> [] ->
  exists result, stringReplace str find replace = Returns result.
Proof.
  intros Hne. unfold stringReplace.
  apply stringReplace_loop_returns; [done|lia].
Qed.

(** Replacing a text by itself changes nothing. *)
Theorem stringReplace_same (str find : list ascii) :
  find <> [] ->
  stringReplace str find find = Returns str.
Proof.
  intros Hne. unfold stringReplace.
  assert (forall fuel pos, length str - pos <= fuel ->
            stringReplace_loop fuel str find find pos = Returns str) as H.
  { induction fuel as [|fuel IH]; intros pos Hfuel;
      cbn [stringReplace_loop];
      destruct (string_find str find pos) as [p|] eqn:Hp; try done;
      destruct (string_find_Some _ _ _ _ Hp) as (rest & Hd & Hle & Hlen);
      pose proof (f_equal length Hd) as Hl;
      rewrite length_drop, length_app in Hl;
      (assert (0 < length find) by (destruct find; [done|simpl; lia])).
    - lia.
    - assert (string_replace str p (length find) find = str) as ->.
      { unfold string_replace. rewrite <- drop_drop, Hd.
        rewrite drop_app_length. rewrite <- Hd. apply take_drop. }
      apply IH. lia. }
  apply H. lia.
Qed.

Lemma search_char_None (c : ascii) (s : list ascii) :
  search [c] s = None -> Forall (fun x => Ascii.eqb x c = false) s.
Proof.
  induction s as [|b s IH]; cbn [search is_prefix]; [constructor|].
  rewrite andb_true_r.
  destruct (Ascii.eqb c b) eqn:E; [done|].
  destruct (search [c] s); [done|]. intros _.
  constructor; [by rewrite Ascii.eqb_sym|]. by apply IH.
Qed.

Lemma search_char_Some (c : ascii) (s : list ascii) (i : nat) :
  search [c] s = Some i ->
  exists before after,
    s = before ++ c :: after /\ length before = i /\
    Forall (fun x => Ascii.eqb x c = false) before.
Proof.
  revert i. induction s as [|b s IH]; intros i; cbn [search is_prefix];
    [done|].
  rewrite andb_true_r. destruct (Ascii.eqb c b) eqn:E.
  - intros [= <-]. apply Ascii.eqb_eq in E as ->. exists [], s. done.
  - destruct (search [c] s) as [j|]; [|done]. simpl. intros [= <-].
    destruct (IH j eq_refl) as (before & after & -> & Hlen & Hall).
    exists (b :: before), after. split; [done|]. split; [simpl; lia|].
    constructor; [by rewrite Ascii.eqb_sym|done].
Qed.

(** For a [find] of one character the result is [str] with every
    occurrence of the character replaced, and nothing else changed. *)
Theorem stringReplace_char (str replace : list ascii) (c : ascii) :
  stringReplace str [c] replace
  = Returns (flat_map (fun x => if Ascii.eqb x c then replace else [x]) str).
Proof.
  set (g := fun x => if Ascii.eqb x c then replace else [x]).
  assert (forall s, Forall (fun x => Ascii.eqb x c = false) s ->
            flat_map g s = s) as Hkeep.
  { induction 1 as [|x s Hx Hs IH]; [done|]. simpl. unfold g at 1.
    rewrite Hx. simpl. by rewrite IH. }
  assert (forall fuel done rest, length rest <= fuel ->
            stringReplace_loop fuel (done ++ rest) [c] replace (length done)
            = Returns (done ++ flat_map g rest)) as H.
  { induction fuel as [|fuel IH]; intros done rest Hfuel;
      cbn [stringReplace_loop]; unfold string_find;
      (destruct (Nat.ltb_spec (length (done ++ rest)) (length done)) as [Hl|_];
       [rewrite length_app in Hl; lia|]);
      rewrite drop_app_length;
      destruct (search [c] rest) as [i|] eqn:Hi;
      cbn [fmap option_fmap option_map].
    - destruct (search_char_Some _ _ _ Hi) as (b & a & -> & _ & _).
      rewrite length_app in Hfuel. simpl in Hfuel. lia.
    - by rewrite (Hkeep _ (search_char_None _ _ Hi)).
    - destruct (search_char_Some _ _ _ Hi) as (b & a & -> & Hlen & Hall).
      assert (string_replace (done ++ b ++ c :: a) (length done + i)
                (length [c]) replace = (done ++ b ++ replace) ++ a) as ->.
      { unfold string_replace. cbn [length].
        rewrite <- Hlen, <- length_app.
        rewrite (app_assoc done b). rewrite take_app_length.
        rewrite <- drop_drop, drop_app_length. simpl.
        by rewrite <- !app_assoc. }
      cbn [length]. replace (length done + i + length replace)
        with (length (done ++ b ++ replace))
        by (rewrite !length_app; lia).
      rewrite IH.
      2:{ rewrite length_app in Hfuel. simpl in Hfuel. lia. }
      rewrite flat_map_app. cbn [flat_map]. fold g.
      rewrite (Hkeep _ Hall).
      change (g c) with (if Ascii.eqb c c then replace else [c]).
      rewrite Ascii.eqb_refl. by rewrite <- !app_assoc.
    - by rewrite (Hkeep _ (search_char_None _ _ Hi)). }
  unfold stringReplace. apply (H (length str) [] str). lia.
Qed.

End UtilsProps.

(** * The sample tree *)





Lemma row_pairing_digests_witness :
  tree_inv Sample.sha384 (leaf_objects (take 3 Sample.records)) [0; 1; 2] /\
  exists nextRow h',
    buildRow Sample.sha384 3 0 [0; 1; 2] []
      (leaf_objects (take 3 Sample.records)) = Ok (nextRow, h') /\
    length nextRow = 2 /\
    forall i node, nextRow !! i = Some node ->
      exists lc dl dr,
        [0; 1; 2] !! (2 * i) = Some lc /\
        getHash (leaf_objects (take 3 Sample.records)) lc = Ok dl /\
        getHash (leaf_objects (take 3 Sample.records))
          (default lc ([0; 1; 2] !! (2 * i + 1))) = Ok dr /\
        getHash h' node = Ok (Sample.sha384 (data dl ++ data dr)).
Proof.
  pose proof (leaf_objects_inv Sample.sha384 (take 3 Sample.records)) as Hinv.
  split; [exact Hinv|].
  exact (proj1 (row_pairing_digests Sample.sha384)
           (leaf_objects (take 3 Sample.records)) [0; 1; 2] Hinv).
Defined.

Lemma empty_tree_query_witness :
  leaves_ (mkTree [] (Sample.digest x00)) = [] /\
  generateSubtree Sample.base64_encode [] (mkTree [] (Sample.digest x00)) "a"
  = Ok JNull.
Proof.
  split; [reflexivity|].
  apply (empty_tree_query Sample.base64_encode []
           (mkTree [] (Sample.digest x00)) "a" eq_refl).
Defined.

Lemma self_paired_node_entry_witness :
  tree_inv Sample.sha384 (leaf_objects (take 3 Sample.records)) [0; 1; 2] /\
  exists nextRow h',
    buildRow Sample.sha384 3 0 [0; 1; 2] []
      (leaf_objects (take 3 Sample.records)) = Ok (nextRow, h') /\
    forall i node, nextRow !! i = Some node ->
      exists lc dl n,
        [0; 1; 2] !! (2 * i) = Some lc /\
        getHash (leaf_objects (take 3 Sample.records)) lc = Ok dl /\
        h' !! node = Some (NodeObj n) /\
        leftChild_ n = Some lc /\
        match [0; 1; 2] !! (2 * i + 1) with
        | None =>
            2 * i + 1 = 3 /\
            rightChild_ n = None /\
            hash_ n = Sample.sha384 (data dl ++ data dl) /\
            entry_everywhere Sample.base64_encode h' node
              (JObject [("left", JString (Sample.base64_encode (data dl)))])
        | Some rc =>
            exists dr,
              getHash (leaf_objects (take 3 Sample.records)) rc = Ok dr /\
              rightChild_ n = Some rc /\
              hash_ n = Sample.sha384 (data dl ++ data dr) /\
              entry_everywhere Sample.base64_encode h' node
                (JObject
                   [("left", JString (Sample.base64_encode (data dl)));
                    ("right", JString (Sample.base64_encode (data dr)))])
        end.
Proof.
  pose proof (leaf_objects_inv Sample.sha384 (take 3 Sample.records)) as Hinv.
  split; [exact Hinv|].
  exact (self_paired_node_entry Sample.sha384 Sample.base64_encode
           (leaf_objects (take 3 Sample.records)) [0; 1; 2] Hinv).
Defined.

(** On three leaves: the node over "a" and "b" has both members, the node
    over "c" alone has "left" only. *)
Example three_leaves_entries :
  exists t h,
    build Sample.sha384 (take 3 Sample.records) = Ok (t, h) /\
    asValue Sample.base64_encode h 3
    = Ok (JObject
            [("left", JString (Sample.base64_encode
                                 (data (Sample.digest x01))));
             ("right", JString (Sample.base64_encode
                                  (data (Sample.digest x02))))]) /\
    asValue Sample.base64_encode h 4
    = Ok (JObject
            [("left", JString (Sample.base64_encode
                                 (data (Sample.digest x03))))]).
Proof.
  eexists _, _. split; [vm_compute; reflexivity|].
  split; vm_compute; reflexivity.
Qed.

(** * The further properties on sample inputs *)

Lemma constructor_succeeds_witness :
  Sample.records <> [] /\
  exists t h,
    build Sample.sha384 Sample.records = Ok (t, h) /\
    leaves_ t = seq 0 (length Sample.records) /\
    wf_heap h /\
    forall i r, Sample.records !! i = Some r ->
      getName h i = Ok (Record_getName r) /\
      getHash h i = Ok (Record_getHash r) /\
      asValue Sample.base64_encode h i = Ok JNull.
Proof.
  assert (Sample.records <> []) as Hne by done.
  split; [exact Hne|].
  exact (constructor_succeeds Sample.sha384 Sample.base64_encode
           Sample.records Hne).
Defined.

Lemma root_is_digest_reduction_witness :
  Sample.records <> [] /\
  exists t h,
    build Sample.sha384 Sample.records = Ok (t, h) /\
    merkle_root Sample.sha384 (map Record_getHash Sample.records)
    = Some (getRootHash t).
Proof.
  assert (Sample.records <> []) as Hne by done.
  split; [exact Hne|].
  exact (root_is_digest_reduction Sample.sha384 Sample.records Hne).
Defined.

Lemma root_ignores_names_witness :
  Sample.records <> [] /\
  map Record_getHash Sample.records
  = map Record_getHash
      [mkRecord "w" (Sample.digest x01); mkRecord "x" (Sample.digest x02);
       mkRecord "y" (Sample.digest x03); mkRecord "z" (Sample.digest x04)] /\
  exists t h t' h',
    build Sample.sha384 Sample.records = Ok (t, h) /\
    build Sample.sha384
      [mkRecord "w" (Sample.digest x01); mkRecord "x" (Sample.digest x02);
       mkRecord "y" (Sample.digest x03); mkRecord "z" (Sample.digest x04)]
    = Ok (t', h') /\
    getRootHash t = getRootHash t'.
Proof.
  assert (Sample.records <> []) as Hne by done.
  split; [exact Hne|]. split; [reflexivity|].
  exact (root_ignores_names Sample.sha384 Sample.records
           [mkRecord "w" (Sample.digest x01); mkRecord "x" (Sample.digest x02);
            mkRecord "y" (Sample.digest x03); mkRecord "z" (Sample.digest x04)]
           Hne eq_refl).
Defined.

Lemma path_length_witness :
  2 < length Sample.records /\
  exists t h entries root,
    build Sample.sha384 Sample.records = Ok (t, h) /\
    generatePath Sample.base64_encode h 2 = Ok (JArray entries) /\
    length entries = Nat.log2_up (length Sample.records) + 2 /\
    last (ancestors (length h) h 2) = Some root /\
    getHash h root = Ok (getRootHash t).
Proof.
  assert (2 < length Sample.records) as Hi by (simpl; lia).
  split; [exact Hi|].
  exact (path_length Sample.sha384 Sample.base64_encode Sample.records 2 Hi).
Defined.

Lemma build_walk_reaches_root_witness :
  2 < length Sample.records /\
  exists t h root,
    build Sample.sha384 Sample.records = Ok (t, h) /\
    last (ancestors (length h) h 2) = Some root /\
    getHash h root = Ok (getRootHash t) /\
    getParent h root = Ok None /\
    forall m a b,
      ancestors (length h) h 2 !! m = Some a ->
      ancestors (length h) h 2 !! S m = Some b ->
      parent_step Sample.sha384 h a b.
Proof.
  assert (2 < length Sample.records) as Hi by (simpl; lia).
  split; [exact Hi|].
  exact (build_walk_reaches_root Sample.sha384 Sample.records 2 Hi).
Defined.

Lemma query_absent_below_witness :
  sorted_records Sample.records = true /\
  ("b5" ∉ map Record_getName Sample.records) /\
  (exists r, r ∈ Sample.records /\
             String.ltb "b5" (Record_getName r) = true) /\
  exists t h k r n path,
    build Sample.sha384 Sample.records = Ok (t, h) /\
    Sample.records !! k = Some r /\
    String.ltb "b5" (Record_getName r) = true /\
    (forall j r', j < k -> Sample.records !! j = Some r' ->
       String.ltb (Record_getName r') "b5" = true) /\
    h !! k = Some (LeafObj n (Record_getName r)) /\
    generatePath Sample.base64_encode h k = Ok path /\
    generateSubtree Sample.base64_encode h t "b5"
    = Ok (JObject [("left", path); ("right", path)]).
Proof.
  assert ("b5" ∉ map Record_getName Sample.records) as Habs.
  { intros H. simpl in H.
    repeat (apply elem_of_cons in H as [H|H]; [discriminate H|]).
    by apply elem_of_nil in H. }
  assert (exists r, r ∈ Sample.records /\
                    String.ltb "b5" (Record_getName r) = true) as Hup.
  { exists (mkRecord "c" (Sample.digest x03)). split; [|reflexivity].
    apply list_elem_of_lookup. by exists 2. }
  split; [reflexivity|]. split; [exact Habs|]. split; [exact Hup|].
  exact (query_absent_below Sample.sha384 Sample.base64_encode
           Sample.records "b5" eq_refl Habs Hup).
Defined.

Lemma query_absent_above_witness :
  sorted_records Sample.records = true /\
  Sample.records <> [] /\
  (forall r, r ∈ Sample.records ->
     String.ltb (Record_getName r) "e" = true) /\
  exists t h,
    build Sample.sha384 Sample.records = Ok (t, h) /\
    generateSubtree Sample.base64_encode h t "e" = Undefined OutOfRange.
Proof.
  assert (Sample.records <> []) as Hne by done.
  assert (forall r, r ∈ Sample.records ->
            String.ltb (Record_getName r) "e" = true) as Hall.
  { intros r H. unfold Sample.records in H.
    repeat (apply elem_of_cons in H as [->|H]; [reflexivity|]).
    by apply elem_of_nil in H. }
  split; [reflexivity|]. split; [exact Hne|]. split; [exact Hall|].
  exact (query_absent_above Sample.sha384 Sample.base64_encode
           Sample.records "e" eq_refl Hne Hall).
Defined.

Lemma isPowerOfTwo_spec_witness :
  (0 <= 64 < 2 ^ 64)%Z /\
  (Utils.isPowerOfTwo 64 = true <->
   exists k, (0 <= k < 64 /\ 64 = 2 ^ k)%Z).
Proof.
  assert (0 <= 64 < 2 ^ 64)%Z as H by done.
  split; [exact H|]. exact (UtilsProps.isPowerOfTwo_spec 64 H).
Defined.

Lemma decode64Estimation_bound_witness :
  (0 <= 100 < 2 ^ 62)%Z /\
  Utils.decode64Estimation 100 = (100 * 4 / 3 + 100 / 96 + 6)%Z /\
  (3 * ((100 + 3) / 4) <= Utils.decode64Estimation 100)%Z.
Proof.
  assert (0 <= 100 < 2 ^ 62)%Z as H by done.
  split; [exact H|]. exact (UtilsProps.decode64Estimation_bound 100 H).
Defined.

Lemma getAsHex_hex2bin_witness :
  (0 < 2 <= Z.of_nat (length [x0a; xff; x10]))%Z /\
  (2 * 2 + 3 <= Utils.INT_MAX)%Z /\
  exists buf digits,
    Utils.getAsHex [x0a; xff; x10] 2 = Utils.Returns buf /\
    Z.of_nat (length buf) = (2 * 2 + 3)%Z /\
    Utils.c_string buf = Some ("0"%byte :: "x"%byte :: digits) /\
    digits = hex_chars (take (Z.to_nat 2) [x0a; xff; x10]) /\
    Utils.hex2bin digits = take (Z.to_nat 2) [x0a; xff; x10].
Proof.
  assert (0 < 2 <= Z.of_nat (length [x0a; xff; x10]))%Z as H1 by done.
  assert (2 * 2 + 3 <= Utils.INT_MAX)%Z as H2 by done.
  split; [exact H1|]. split; [exact H2|].
  exact (UtilsProps.getAsHex_hex2bin [x0a; xff; x10] 2 H1 H2).
Defined.

Lemma getAsHex_no_text_witness :
  (0 <= 0)%Z /\
  ((0 = 0)%Z /\
   Utils.getAsHex [x0a] 0
   = Utils.Returns [Some "0"%byte; Some "x"%byte; None] /\
   Utils.c_string [Some "0"%byte; Some "x"%byte; None] = None \/
   (0 < 0)%Z /\ exists f, Utils.getAsHex [x0a] 0 = Utils.Fails f).
Proof.
  assert (0 <= 0)%Z as H by done.
  split; [exact H|]. exact (UtilsProps.getAsHex_no_text [x0a] 0 H).
Defined.

Lemma hex2bin_length_witness :
  Forall (fun c => Byte.eqb c x00 = false) ["4"%byte; "f"%byte; "a"%byte] /\
  length (Utils.hex2bin ["4"%byte; "f"%byte; "a"%byte])
  = length ["4"%byte; "f"%byte; "a"%byte] / 2.
Proof.
  assert (Forall (fun c => Byte.eqb c x00 = false)
            ["4"%byte; "f"%byte; "a"%byte]) as H
    by (repeat constructor).
  split; [exact H|]. exact (UtilsProps.hex2bin_length _ H).
Defined.

Lemma stringReplace_empty_find_witness :
  0 <= length (list_ascii_of_string "ab") /\
  Utils.stringReplace_loop 5 (list_ascii_of_string "ab") []
    (list_ascii_of_string "x") 0
  = Utils.Fails Utils.OutOfFuel.
Proof.
  assert (0 <= length (list_ascii_of_string "ab")) as H by (simpl; lia).
  split; [exact H|].
  exact (UtilsProps.stringReplace_empty_find 5 _ _ 0 H).
Defined.

Lemma stringReplace_returns_witness :
  list_ascii_of_string "ab" <> [] /\
  exists result,
    Utils.stringReplace (list_ascii_of_string "aabab")
      (list_ascii_of_string "ab") (list_ascii_of_string "b")
    = Utils.Returns result.
Proof.
  assert (list_ascii_of_string "ab" <> []) as H by done.
  split; [exact H|].
  exact (UtilsProps.stringReplace_returns _ _ _ H).
Defined.

Lemma stringReplace_same_witness :
  list_ascii_of_string "ab" <> [] /\
  Utils.stringReplace (list_ascii_of_string "aabab")
    (list_ascii_of_string "ab") (list_ascii_of_string "ab")
  = Utils.Returns (list_ascii_of_string "aabab").
Proof.
  assert (list_ascii_of_string "ab" <> []) as H by done.
  split; [exact H|].
  exact (UtilsProps.stringReplace_same _ _ H).
Defined.

Lemma path_entries_linked_witness :
  Sample.records !! 2 = Some (mkRecord "c" (Sample.digest x03)) /\
  exists t h entries,
    build Sample.sha384 Sample.records = Ok (t, h) /\
    generatePath Sample.base64_encode h 2 = Ok (JArray entries) /\
    entries !! 0
    = Some (leaf_entry "c"
              (Sample.base64_encode (data (Sample.digest x03)))) /\
    entries !! 1 = Some JNull /\
    forall m a b,
      ancestors (length h) h 2 !! m = Some a ->
      ancestors (length h) h 2 !! S m = Some b ->
      exists da e,
        getHash h a = Ok da /\
        entries !! S (S m) = Some e /\
        (member e "left" = Some (JString (Sample.base64_encode (data da))) \/
         member e "right"
         = Some (JString (Sample.base64_encode (data da)))).
Proof.
  split; [reflexivity|].
  exact (path_entries_linked Sample.sha384 Sample.base64_encode
           Sample.records 2 (mkRecord "c" (Sample.digest x03)) eq_refl).
Defined.
